(** * SQUIRDLE: the guess evaluator, the session engine and the statistics store

    A shallow embedding of [src/utils/gameLogic.ts] and of the game context
    ([context/GameContext.tsx]) together with the properties stated for them.

    Modelling conventions.
    - A JavaScript string is a list of code units; only the ASCII range is
      modelled, so a code unit is an [ascii] and [toLowerCase]/[toUpperCase]
      act on the letters A-Z / a-z alone.
    - A JavaScript array that is filled by index assignment is a list of
      optional cells ([None] is a hole, read back as [undefined]); assigning
      past the end extends the array, as JavaScript does.
    - A [Record<string, number>] is a finite map; a missing key reads as
      [undefined].
    - Lengths and indices are [nat]. A JavaScript number that holds an
      integer is the [Z] it denotes; arithmetic on the stored counters rounds
      to the nearest double ([roundDouble]), and the 32-bit behaviour of the
      bit operators in the daily hash is written out. *)

From Stdlib Require Import ZArith Ascii String Lia.
From stdpp Require Import base decidable option list gmap strings pretty.

#[local] Set Warnings "-clear-no-such-hyp".

Local Open Scope Z_scope.

(** ** JavaScript strings *)

(** The case maps and the white space below are those of JavaScript on the
    ASCII code units (below 128). Above, [String.prototype.toLowerCase] also
    folds the Latin-1 capitals, [toUpperCase] leaves the 8-bit range for some
    code units and [trim] also strips the no-break space; what is stated
    about words outside ASCII and depends on these carries the hypothesis
    [isAscii]. *)

Abbreviation jsstring := (list ascii).

Definition str (s : string) : jsstring := String.list_ascii_of_string s.

Definition lower_char (c : ascii) : ascii :=
  let n := nat_of_ascii c in
  if (Nat.leb 65 n && Nat.leb n 90)%bool then ascii_of_nat (n + 32) else c.

Definition upper_char (c : ascii) : ascii :=
  let n := nat_of_ascii c in
  if (Nat.leb 97 n && Nat.leb n 122)%bool then ascii_of_nat (n - 32) else c.

Definition toLowerCase (s : jsstring) : jsstring := lower_char <$> s.
Definition toUpperCase (s : jsstring) : jsstring := upper_char <$> s.

Definition isAscii (w : jsstring) : Prop :=
  Forall (λ c, (nat_of_ascii c < 128)%nat) w.

(** [/[a-z]/] on one code unit. *)
Definition is_az (c : ascii) : bool :=
  let n := nat_of_ascii c in (Nat.leb 97 n && Nat.leb n 122)%bool.

(** [String.prototype.trim]: white space is dropped at both ends. *)
Fixpoint trimStart (s : jsstring) : jsstring :=
  match s with
  | c :: s' => if Ascii.is_space c then trimStart s' else s
  | [] => []
  end.
Definition trim (s : jsstring) : jsstring :=
  reverse (trimStart (reverse (trimStart s))).

(** ** JavaScript arrays written by index *)

Abbreviation JsArray A := (list (option A)).

(** [a[i]]: a hole and an index past the end both read as [undefined]. *)
Definition arr_get {A} (a : JsArray A) (i : nat) : option A := mjoin (a !! i).

(** [a[i] = v]: in range the cell is overwritten, past the end the array is
    extended with holes up to [i]. *)
Definition arr_set {A} (i : nat) (v : A) (a : JsArray A) : JsArray A :=
  if decide (i < length a)%nat then <[i := Some v]> a
  else a ++ replicate (i - length a) None ++ [Some v].

(** ** types/index.ts *)

Inductive WordLength := Five | Six.
Inductive GameMode := daily | unlimited.
Inductive Difficulty := normal | hard.
Inductive LetterStatus := correct | present | absent | empty.
Inductive GameStatus := Playing | Won | Lost.

Global Instance WordLength_eq_dec : EqDecision WordLength.
Proof. solve_decision. Defined.
Global Instance GameMode_eq_dec : EqDecision GameMode.
Proof. solve_decision. Defined.
Global Instance LetterStatus_eq_dec : EqDecision LetterStatus.
Proof. solve_decision. Defined.
Global Instance GameStatus_eq_dec : EqDecision GameStatus.
Proof. solve_decision. Defined.

Definition wl (w : WordLength) : nat :=
  match w with Five => 5%nat | Six => 6%nat end.

Record LetterFeedback := LF { letter : ascii; status : LetterStatus }.

Global Instance LetterFeedback_eq_dec : EqDecision LetterFeedback.
Proof. solve_decision. Defined.

Record Guess := MkGuess { word : jsstring; guess_feedback : list LetterFeedback }.

Record HintSummary := MkHint { lettersInWord : nat; correctPosition : nat }.

Record GameStats := MkStats {
  gamesPlayed : Z;
  gamesWon : Z;
  currentStreak : Z;
  bestStreak : Z;
  guessDistribution : gmap Z Z
}.

Record GameState := MkGame {
  secretWord : jsstring;
  guesses : list Guess;
  currentGuess : jsstring;
  gameStatus : GameStatus;
  wordLength : WordLength;
  gameMode : GameMode;
  difficulty : Difficulty;
  maxAttempts : nat
}.

(** ** The evaluator: [getGuessFeedback] *)

(** [secretCharCounts[char] = (secretCharCounts[char] || 0) + 1] for every
    character of the secret. *)
Definition countChars (secretChars : list ascii) : gmap ascii Z :=
  foldl (λ m c, <[c := default 0 (m !! c) + 1]> m) ∅ secretChars.

(** [secretCharCounts[c]--]. On a missing key JavaScript stores [NaN], which
    every later read of this function treats like a missing key; the model
    leaves the key missing. *)
Definition decrement (c : ascii) (m : gmap ascii Z) : gmap ascii Z :=
  alter Z.pred c m.

(** The local variables the three loops of [getGuessFeedback] share. *)
Record EvalState := MkEval {
  feedback : JsArray LetterFeedback;
  exactMatchedIndices : list nat;
  secretCharCounts : gmap ascii Z
}.

(** Body of the first loop, at index [i]. *)
Definition firstPass (guessChars secretChars : list ascii)
    (st : EvalState) (i : nat) : EvalState :=
  match guessChars !! i with
  | Some c =>
      if decide (secretChars !! i = Some c) then
        {| feedback := arr_set i (LF c correct) (feedback st);
           exactMatchedIndices := exactMatchedIndices st ++ [i];
           secretCharCounts := decrement c (secretCharCounts st) |}
      else st
  | None => st
  end.

(** [secretCharCounts[char] && secretCharCounts[char] > 0]. *)
Definition hasRemaining (m : gmap ascii Z) (c : ascii) : bool :=
  match m !! c with
  | Some n => negb (n =? 0) && (0 <? n)
  | None => false
  end.

(** Body of the second loop, at index [i]. *)
Definition secondPass (guessChars : list ascii)
    (st : EvalState) (i : nat) : EvalState :=
  if bool_decide (i ∈ exactMatchedIndices st) then st
  else match guessChars !! i with
       | Some c =>
           if hasRemaining (secretCharCounts st) c then
             {| feedback := arr_set i (LF c present) (feedback st);
                exactMatchedIndices := exactMatchedIndices st;
                secretCharCounts := decrement c (secretCharCounts st) |}
           else
             {| feedback := arr_set i (LF c absent) (feedback st);
                exactMatchedIndices := exactMatchedIndices st;
                secretCharCounts := secretCharCounts st |}
       | None => st
       end.

(** Body of the third loop: [if (!feedback[i]) feedback[i] = absent]. *)
Definition fillPass (guessChars : list ascii)
    (st : EvalState) (i : nat) : EvalState :=
  match arr_get (feedback st) i, guessChars !! i with
  | None, Some c =>
      {| feedback := arr_set i (LF c absent) (feedback st);
         exactMatchedIndices := exactMatchedIndices st;
         secretCharCounts := secretCharCounts st |}
  | _, _ => st
  end.

(** The three loops on the lower-cased characters. *)
Definition feedbackLoops (guessChars secretChars : list ascii) : EvalState :=
  let idx := seq 0 (length guessChars) in
  let st0 := {| feedback := [];
                exactMatchedIndices := [];
                secretCharCounts := countChars secretChars |} in
  let st1 := foldl (firstPass guessChars secretChars) st0 idx in
  let st2 := foldl (secondPass guessChars) st1 idx in
  foldl (fillPass guessChars) st2 idx.

Definition getGuessFeedback (guess secret : jsstring) : JsArray LetterFeedback :=
  feedback (feedbackLoops (toLowerCase guess) (toLowerCase secret)).

(** The cells of an array, in order, holes skipped; on the result of
    [getGuessFeedback] no cell is a hole (see [getGuessFeedback_dense]). *)
Definition cells {A} (a : JsArray A) : list A := omap id a.

Definition statuses (fb : list LetterFeedback) : list LetterStatus :=
  status <$> fb.

(** ** The two passes, on the count map of the code *)

(** The loops of [getGuessFeedback] read as list recursions, still on the
    map [countChars] builds; the algorithm as the specification words it,
    on counts of its own, is [evaluate_spec] below. *)

(** Pass 1 on the paired positions: an exact match takes one occurrence of
    its letter out of the remaining counts. *)
Definition resolveExact (remaining : gmap ascii Z)
    (pairs : list (ascii * ascii)) : gmap ascii Z :=
  foldl (λ m p, if decide (p.1 = p.2) then decrement p.1 m else m)
        remaining pairs.

(** Pass 2, left to right: a resolved position keeps [correct]; an unresolved
    one is [present] while its letter has a positive remaining count, which
    it then uses up, and [absent] otherwise. *)
Fixpoint assignRest (remaining : gmap ascii Z)
    (pairs : list (ascii * ascii)) : list LetterFeedback :=
  match pairs with
  | [] => []
  | (g, s) :: rest =>
      if decide (g = s) then LF g correct :: assignRest remaining rest
      else if 0 <? default 0 (remaining !! g)
           then LF g present :: assignRest (decrement g remaining) rest
           else LF g absent :: assignRest remaining rest
  end.

Definition twoPass (guess secret : list ascii) : list LetterFeedback :=
  let pairs := zip guess secret in
  assignRest (resolveExact (countChars secret) pairs) pairs.

(** The counts pass 2 is left with after a prefix of the positions. *)
Fixpoint restCounts (remaining : gmap ascii Z)
    (pairs : list (ascii * ascii)) : gmap ascii Z :=
  match pairs with
  | [] => remaining
  | (g, s) :: rest =>
      if decide (g = s) then restCounts remaining rest
      else if 0 <? default 0 (remaining !! g)
           then restCounts (decrement g remaining) rest
           else restCounts remaining rest
  end.

(** Occurrences of a letter in a word. *)
Definition occurrences (c : ascii) (w : list ascii) : nat :=
  length (filter (λ x, x = c) w).

(** Positions of a feedback row credited to letter [c]: those carrying [c]
    with status [correct] or [present]. *)
Definition credited (c : ascii) (fb : list LetterFeedback) : nat :=
  length (filter (λ f, letter f = c ∧ (status f = correct ∨ status f = present)) fb).

(** The count a map holds for a letter, 0 when the key is missing. *)
Definition cnt (m : gmap ascii Z) (c : ascii) : Z := default 0 (m !! c).

(** Positions of the paired words where both carry [c]. *)
Definition matches (c : ascii) (pairs : list (ascii * ascii)) : nat :=
  length (filter (λ p, p.1 = c ∧ p.2 = c) pairs).

(** The cell the first loop writes at index [j], if any. *)
Definition exactCell (pairs : list (ascii * ascii)) (j : nat)
    : option LetterFeedback :=
  match pairs !! j with
  | Some (c, d) => if decide (c = d) then Some (LF c correct) else None
  | None => None
  end.

(** ** The hint summary and the exact match *)

(** The [Set<string>] of already counted letters and the running count. *)
Definition countLetter (secretChars : gset ascii)
    (acc : nat * gset ascii) (char : ascii) : nat * gset ascii :=
  if decide (char ∈ secretChars ∧ char ∉ acc.2)
  then (S acc.1, {[char]} ∪ acc.2)
  else acc.

Definition getHintSummary (guess secret : jsstring) : HintSummary :=
  let guessLower := toLowerCase guess in
  let secretLower := toLowerCase secret in
  let correctPosition :=
    foldl (λ n i, if decide (guessLower !! i = secretLower !! i) then S n else n)
          0%nat (seq 0 (length guessLower)) in
  let secretChars : gset ascii := list_to_set secretLower in
  let lettersInWord := (foldl (countLetter secretChars) (0%nat, ∅) guessLower).1 in
  {| lettersInWord := lettersInWord; correctPosition := correctPosition |}.

Definition isGuessCorrect (guess secret : jsstring) : bool :=
  bool_decide (toLowerCase guess = toLowerCase secret).

Definition getMaxAttempts (wordLength : WordLength) : nat :=
  if decide (wordLength = Five) then 6%nat else 7%nat.

(** [/^[a-z]+$/.test]. *)
Definition test_az_plus (w : jsstring) : bool :=
  negb (bool_decide (w = [])) && forallb is_az w.

(** [wordLength] is the optional second argument. *)
Definition isValidWord (word : jsstring) (wordLength : option nat) : bool :=
  let cleanWord := trim (toLowerCase word) in
  let len := length cleanWord in
  if negb (Nat.eqb len 5) && negb (Nat.eqb len 6) then false
  else if match wordLength with
          | Some w => negb (Nat.eqb len w)
          | None => false
          end then false
  else test_az_plus cleanWord.

(** ** The statistics store *)

Record DailyRecord := MkDaily {
  daily_date : jsstring;
  daily_completed : bool;
  daily_won : bool;
  daily_wordLength : WordLength;
  daily_guesses : nat
}.

(** [localStorage], by key. An entry is what [JSON.parse] gives back for the
    key; a missing or unreadable entry is [None]. *)
Record Storage := MkStorage {
  wordgame_stats : option GameStats;
  wordgame_daily : option DailyRecord
}.

(** The counters are JavaScript numbers holding integers. Every integer of
    magnitude up to 2^53 is a double; a larger one is rounded to the nearest
    double, ties to the even significand: doubles of magnitude in
    [2^k, 2^(k+1)) are 2^(k-52) apart. (Infinity, beyond 2^1024, NaN and
    fractions are not modelled.) *)
Definition roundDouble (z : Z) : Z :=
  let a := Z.abs z in
  if a <=? 2 ^ 53 then z
  else
    let spacing := 2 ^ (Z.log2 a - 52) in
    let q := a / spacing in
    let r := a mod spacing in
    let q' := if 2 * r <? spacing then q
              else if spacing <? 2 * r then q + 1
              else if Z.even q then q else q + 1 in
    Z.sgn z * (q' * spacing).

(** [x + y] on two such numbers; [x++] is [js_add x 1]. *)
Definition js_add (x y : Z) : Z := roundDouble (x + y).

Arguments js_add : simpl never.

Definition freshStats : GameStats := MkStats 0 0 0 0 ∅.

Definition loadStats (ls : Storage) : GameStats :=
  default freshStats (wordgame_stats ls).

Definition saveStats (stats : GameStats) (ls : Storage) : Storage :=
  {| wordgame_stats := Some stats; wordgame_daily := wordgame_daily ls |}.

Definition updateStats (won : bool) (guesses : Z) (ls : Storage)
    : GameStats * Storage :=
  let stats := loadStats ls in
  let played := js_add (gamesPlayed stats) 1 in
  let stats' :=
    if won then
      let wonGames := js_add (gamesWon stats) 1 in
      let streak := js_add (currentStreak stats) 1 in
      let best := if streak >? bestStreak stats then streak else bestStreak stats in
      let dist := guessDistribution stats in
      MkStats played wonGames streak best
              (<[guesses := js_add (default 0 (dist !! guesses)) 1]> dist)
    else
      MkStats played (gamesWon stats) 0 (bestStreak stats) (guessDistribution stats) in
  (stats', saveStats stats' ls).

(** ** The daily word *)

(** What [new Date()] gives: [getFullYear()], [getMonth()] (zero-based) and
    [getDate()]. *)
Record Today := MkToday { fullYear : Z; monthIndex : Z; dayOfMonth : Z }.

(** The template string [`${year}-${month}-${date}`]. *)
Definition dateString (today : Today) : jsstring :=
  str (pretty (fullYear today)) ++ str "-" ++
  str (pretty (monthIndex today)) ++ str "-" ++
  str (pretty (dayOfMonth today)).

(** [ToInt32]: reduction modulo 2^32 into the signed range. *)
Definition toInt32 (x : Z) : Z := (x + 2 ^ 31) mod 2 ^ 32 - 2 ^ 31.

(** [x << n] and [x & y] on numbers. *)
Definition js_shl (x n : Z) : Z := toInt32 (Z.shiftl (toInt32 x) n).
Definition js_and (x y : Z) : Z := Z.land (toInt32 x) (toInt32 y).

Definition charCodeAt (s : jsstring) (i : nat) : option Z :=
  (λ c, Z.of_nat (nat_of_ascii c)) <$> s !! i.

(** Body of the hash loop at index [i]. *)
Definition hashStep (dateString : jsstring) (hash : Z) (i : nat) : Z :=
  match charCodeAt dateString i with
  | Some code =>
      let hash := (js_shl hash 5 - hash) + code in
      js_and hash hash
  | None => hash
  end.

Definition dateHash (dateString : jsstring) : Z :=
  foldl (hashStep dateString) 0 (seq 0 (length dateString)).

(** The loop read as a fold over the characters, with the shift written as
    a product and the cut to 32 bits still that of the bit operators. *)
Definition specHash (chars : jsstring) : Z :=
  foldl (λ hash c, toInt32 (hash * 32 - hash + Z.of_nat (nat_of_ascii c))) 0 chars.

(** [saveDailyChallengeCompleted]. *)
Definition saveDailyChallengeCompleted (today : Today) (won : bool)
    (wordLength : WordLength) (guesses : nat) (ls : Storage) : Storage :=
  {| wordgame_stats := wordgame_stats ls;
     wordgame_daily := Some (MkDaily (dateString today) true won wordLength guesses) |}.


(** The word lists of [data/words] are not part of the sources at hand; the
    functions that read them take them as parameters. *)
Section WordSource.
Variables FIVE_LETTER_WORDS SIX_LETTER_WORDS : list jsstring.

Definition wordListFor (wordLength : WordLength) : list jsstring :=
  if decide (wordLength = Five) then FIVE_LETTER_WORDS else SIX_LETTER_WORDS.

(** [today] is the value of [new Date()]. On an empty list the index is
    [NaN] and the result [undefined]. *)
Definition getDailyWord (wordLength : WordLength) (today : Today)
    : option jsstring :=
  let wordList := wordListFor wordLength in
  let hash := dateHash (dateString today) in
  if decide (length wordList = 0%nat) then None
  else wordList !! Z.to_nat (Z.abs hash mod Z.of_nat (length wordList)).

(** [randomIndex] is the value of
    [Math.floor(Math.random() * wordList.length)]. *)
Definition getRandomWord (wordLength : WordLength) (randomIndex : nat)
    : option jsstring :=
  wordListFor wordLength !! randomIndex.
End WordSource.

(** ** The game context *)

(** The values of [keyboardStatus]; a missing key is [undefined]. *)
Inductive KeyStatus := key_correct | key_present | key_absent.

Global Instance KeyStatus_eq_dec : EqDecision KeyStatus.
Proof. solve_decision. Defined.

(** Calls into the statistics store, in the order made. *)
Inductive Call :=
  | CallUpdateStats (won : bool) (guesses : nat)
  | CallSaveDaily (won : bool) (wordLength : WordLength) (guesses : nat).

Global Instance Call_eq_dec : EqDecision Call.
Proof. solve_decision. Defined.

(** The state the provider holds, the storage it writes and the log of the
    store calls it has made. *)
Record Context := MkContext {
  gameState : GameState;
  currentHint : option HintSummary;
  lastGuessFeedback : option (list LetterFeedback);
  keyboardStatus : gmap jsstring KeyStatus;
  stats : GameStats;
  storage : Storage;
  calls : list Call
}.

(** Body of the loop of [updateKeyboardStatus]; the key is the one-letter
    string [item.letter]. *)
Definition keyboardStep (newStatus : gmap jsstring KeyStatus)
    (item : LetterFeedback) : gmap jsstring KeyStatus :=
  let key := [letter item] in
  let currentStatus := newStatus !! key in
  if decide (status item = correct) then <[key := key_correct]> newStatus
  else if decide (status item = present ∧ currentStatus ≠ Some key_correct)
  then <[key := key_present]> newStatus
  else if decide (status item = absent ∧ currentStatus ≠ Some key_correct
                  ∧ currentStatus ≠ Some key_present)
  then <[key := key_absent]> newStatus
  else newStatus.

Definition updateKeyboardStatus (feedback : list LetterFeedback)
    (prev : gmap jsstring KeyStatus) : gmap jsstring KeyStatus :=
  foldl keyboardStep prev feedback.

Definition statusAfter (won lost : bool) : GameStatus :=
  if won then Won else if lost then Lost else Playing.

(** [submitGuess]: the returned boolean and the context after the call. *)
Definition submitGuess (today : Today) (guess : jsstring) (ctx : Context)
    : bool * Context :=
  let gs := gameState ctx in
  let word := toLowerCase guess in
  if negb (Nat.eqb (length word) (wl (wordLength gs))) then (false, ctx)
  else if negb (isValidWord word (Some (wl (wordLength gs)))) then (false, ctx)
  else
    let feedback := cells (getGuessFeedback word (secretWord gs)) in
    let hint := getHintSummary word (secretWord gs) in
    let keyboard := updateKeyboardStatus feedback (keyboardStatus ctx) in
    let newGuesses := guesses gs ++ [MkGuess word feedback] in
    let won := isGuessCorrect word (secretWord gs) in
    let lost := negb won && Nat.leb (maxAttempts gs) (length newGuesses) in
    let gs' := MkGame (secretWord gs) newGuesses [] (statusAfter won lost)
                      (wordLength gs) (gameMode gs) (difficulty gs)
                      (maxAttempts gs) in
    if won || lost then
      let '(newStats, ls) :=
        updateStats won (Z.of_nat (length newGuesses)) (storage ctx) in
      let log := calls ctx ++ [CallUpdateStats won (length newGuesses)] in
      if decide (gameMode gs = daily) then
        (true, MkContext gs' (Some hint) (Some feedback) keyboard newStats
                 (saveDailyChallengeCompleted today won (wordLength gs)
                    (length newGuesses) ls)
                 (log ++ [CallSaveDaily won (wordLength gs) (length newGuesses)]))
      else
        (true, MkContext gs' (Some hint) (Some feedback) keyboard newStats ls log)
    else
      (true, MkContext gs' (Some hint) (Some feedback) keyboard (stats ctx)
               (storage ctx) (calls ctx)).

Definition withGameState (ctx : Context) (gs : GameState) : Context :=
  MkContext gs (currentHint ctx) (lastGuessFeedback ctx) (keyboardStatus ctx)
            (stats ctx) (storage ctx) (calls ctx).

Definition addLetter (letter : jsstring) (ctx : Context) : Context :=
  let upperLetter := toUpperCase letter in
  if decide (keyboardStatus ctx !! upperLetter = Some key_absent) then ctx
  else
    let prev := gameState ctx in
    if Nat.leb (wl (wordLength prev)) (length (currentGuess prev))
       || negb (bool_decide (gameStatus prev = Playing))
    then ctx
    else withGameState ctx
           (MkGame (secretWord prev) (guesses prev)
                   (currentGuess prev ++ toLowerCase letter)
                   (gameStatus prev) (wordLength prev) (gameMode prev)
                   (difficulty prev) (maxAttempts prev)).

Definition removeLetter (ctx : Context) : Context :=
  let prev := gameState ctx in
  if Nat.eqb (length (currentGuess prev)) 0
     || negb (bool_decide (gameStatus prev = Playing))
  then ctx
  else withGameState ctx
         (MkGame (secretWord prev) (guesses prev)
                 (take (length (currentGuess prev) - 1) (currentGuess prev))
                 (gameStatus prev) (wordLength prev) (gameMode prev)
                 (difficulty prev) (maxAttempts prev)).

(** [startGame]: the custom word when given with the right length, else the
    daily or the random word. When the word source yields [undefined] (an
    empty word list, a random index past the end) the code installs the game
    all the same, with [secretWord] undefined, and every later [submitGuess]
    throws on it; the model has no such state and gives [None] for it. *)
Definition startGame (FIVE_LETTER_WORDS SIX_LETTER_WORDS : list jsstring)
    (today : Today) (randomIndex : nat)
    (wordLength : WordLength) (gameMode : GameMode)
    (customWord : option jsstring) (ctx : Context) : option Context :=
  let useCustom :=
    match customWord with
    | Some w => Nat.ltb 0 (length w) && Nat.eqb (length w) (wl wordLength)
    | None => false
    end in
  let secretWord :=
    if useCustom then toLowerCase <$> customWord
    else if decide (gameMode = daily)
    then getDailyWord FIVE_LETTER_WORDS SIX_LETTER_WORDS wordLength today
    else getRandomWord FIVE_LETTER_WORDS SIX_LETTER_WORDS wordLength randomIndex in
  (λ secretWord,
     MkContext (MkGame secretWord [] [] Playing wordLength gameMode normal
                       (getMaxAttempts wordLength))
               None None ∅ (stats ctx) (storage ctx) (calls ctx))
  <$> secretWord.

(** The provider's first state: the initial [useState] values. *)
Definition initialContext (ls : Storage) : Context :=
  MkContext (MkGame [] [] [] Playing Five unlimited normal 6)
            None None ∅ (loadStats ls) ls [].

(** The order of the keyboard statuses: nothing recorded, then absent,
    present, correct. *)
Definition rank (o : option KeyStatus) : nat :=
  match o with
  | None => 0
  | Some key_absent => 1
  | Some key_present => 2
  | Some key_correct => 3
  end%nat.

(** The keyboard after the feedback rows of a sequence of guesses. *)
Definition keyboardAfter (rows : list (list LetterFeedback))
    (prev : gmap jsstring KeyStatus) : gmap jsstring KeyStatus :=
  foldl (λ kb row, updateKeyboardStatus row kb) prev rows.

(** A game on the secret "world", as [startGame] leaves it when that word
    is chosen from the word list on a fresh installation. *)
Definition worldGame : Context :=
  MkContext (MkGame (str "world") [] [] Playing Five unlimited normal 6)
            None None ∅ freshStats (MkStorage None None) [].

(** The context after a sequence of submitted guesses. *)
Definition play (today : Today) (inputs : list jsstring) (ctx : Context) : Context :=
  foldl (λ ctx guess, (submitGuess today guess ctx).2) ctx inputs.

(** ** The daily challenge and the settings of [gameLogic.ts] *)

(** [wordIndex] is [NaN] on an empty word list, modelled as [None]. *)
Record DailyChallenge := MkChallenge {
  challenge_date : jsstring;
  wordIndex : option nat;
  challenge_wordLength : WordLength
}.

(** [getDailyChallenge]; the hash loop is the one of [getDailyWord]. *)
Definition getDailyChallenge (FIVE_LETTER_WORDS SIX_LETTER_WORDS : list jsstring)
    (today : Today) : DailyChallenge :=
  let dateString := dateString today in
  let hash := dateHash dateString in
  let wordLength := if decide (Z.abs hash mod 2 = 0) then Five else Six in
  let wordList := wordListFor FIVE_LETTER_WORDS SIX_LETTER_WORDS wordLength in
  let wordIndex :=
    if decide (length wordList = 0%nat) then None
    else Some (Z.to_nat (Z.abs hash mod Z.of_nat (length wordList))) in
  {| challenge_date := dateString;
     wordIndex := wordIndex;
     challenge_wordLength := wordLength |}.

Record AppSettings := MkSettings {
  darkMode : bool;
  colorblindMode : bool;
  soundEnabled : bool;
  lastPlayedDate : option jsstring
}.

(** The settings the provider holds and the [wordgame_settings] entry of
    [localStorage] ([None]: missing or unreadable). As for the statistics, a
    write to the storage is taken to succeed. *)
Record SettingsState := MkSettingsState {
  settings : AppSettings;
  wordgame_settings : option AppSettings
}.

Definition defaultSettings : AppSettings := MkSettings true false true None.

Definition loadSettings (stored : option AppSettings) : AppSettings :=
  default defaultSettings stored.

Definition saveSettings (settings : AppSettings) : option AppSettings :=
  Some settings.

(** The provider's first settings: [useState(loadSettings())]. *)
Definition initialSettings (stored : option AppSettings) : SettingsState :=
  MkSettingsState (loadSettings stored) stored.

Definition toggleDarkMode (st : SettingsState) : SettingsState :=
  let prev := settings st in
  let newSettings := MkSettings (negb (darkMode prev)) (colorblindMode prev)
                                (soundEnabled prev) (lastPlayedDate prev) in
  MkSettingsState newSettings (saveSettings newSettings).

Definition toggleColorblindMode (st : SettingsState) : SettingsState :=
  let prev := settings st in
  let newSettings := MkSettings (darkMode prev) (negb (colorblindMode prev))
                                (soundEnabled prev) (lastPlayedDate prev) in
  MkSettingsState newSettings (saveSettings newSettings).

Definition toggleSound (st : SettingsState) : SettingsState :=
  let prev := settings st in
  let newSettings := MkSettings (darkMode prev) (colorblindMode prev)
                                (negb (soundEnabled prev)) (lastPlayedDate prev) in
  MkSettingsState newSettings (saveSettings newSettings).

Inductive Toggle := DarkMode | ColorblindMode | Sound.

Global Instance Toggle_eq_dec : EqDecision Toggle.
Proof. solve_decision. Defined.

Definition toggle (t : Toggle) : SettingsState → SettingsState :=
  match t with
  | DarkMode => toggleDarkMode
  | ColorblindMode => toggleColorblindMode
  | Sound => toggleSound
  end.

(** ** The rest of the game context and the game screen *)

(** [resetGame]: [startGame] with the session's length and mode and no
    custom word. *)
Definition resetGame (FIVE_LETTER_WORDS SIX_LETTER_WORDS : list jsstring)
    (today : Today) (randomIndex : nat) (ctx : Context) : option Context :=
  startGame FIVE_LETTER_WORDS SIX_LETTER_WORDS today randomIndex
            (wordLength (gameState ctx)) (gameMode (gameState ctx)) None ctx.

(** [handleSubmit] of the game screen: the message it sets, if any, and the
    context after it. *)
Definition handleSubmit (today : Today) (ctx : Context)
    : option jsstring * Context :=
  let gs := gameState ctx in
  if negb (Nat.eqb (length (currentGuess gs)) (wl (wordLength gs))) then
    (Some (str "Word must be " ++ str (pretty (wl (wordLength gs)))
           ++ str " letters"), ctx)
  else
    let r := submitGuess today (currentGuess gs) ctx in
    if negb r.1 then (Some (str "Not in word list"), r.2) else (None, r.2).

(** [/^[A-Z]$/.test]. *)
Definition test_AZ_one (key : jsstring) : bool :=
  match key with
  | [c] => Nat.leb 65 (nat_of_ascii c) && Nat.leb (nat_of_ascii c) 90
  | _ => false
  end.

(** [handleKeyDown], on [event.key]. *)
Definition handleKeyDown (today : Today) (eventKey : jsstring) (ctx : Context)
    : option jsstring * Context :=
  if negb (bool_decide (gameStatus (gameState ctx) = Playing)) then (None, ctx)
  else
    let key := toUpperCase eventKey in
    if bool_decide (key = str "ENTER") then handleSubmit today ctx
    else if bool_decide (key = str "BACKSPACE") || bool_decide (key = str "DELETE")
    then (None, removeLetter ctx)
    else if test_AZ_one key then (None, addLetter key ctx)
    else (None, ctx).

(** [handleKeyPress], on a key of the on-screen keyboard. *)
Definition handleKeyPress (today : Today) (key : jsstring) (ctx : Context)
    : option jsstring * Context :=
  if negb (bool_decide (gameStatus (gameState ctx) = Playing)) then (None, ctx)
  else if bool_decide (key = str "ENTER") then handleSubmit today ctx
  else if bool_decide (key = str "BACK") then (None, removeLetter ctx)
  else (None, addLetter key ctx).

Definition KEYBOARD_ROWS : list (list jsstring) :=
  [ str <$> ["Q"; "W"; "E"; "R"; "T"; "Y"; "U"; "I"; "O"; "P"];
    str <$> ["A"; "S"; "D"; "F"; "G"; "H"; "J"; "K"; "L"];
    str <$> ["ENTER"; "Z"; "X"; "C"; "V"; "B"; "N"; "M"; "BACK"] ].

(** The context after a sequence of key events, each handled on the state
    the one before has left (the screen renders between two events). *)
Definition typeKeys (today : Today) (keys : list jsstring) (ctx : Context)
    : Context :=
  foldl (λ ctx key, (handleKeyDown today key ctx).2) ctx keys.

(** The context after a sequence of presses on the on-screen keyboard. *)
Definition pressKeys (today : Today) (keys : list jsstring) (ctx : Context)
    : Context :=
  foldl (λ ctx key, (handleKeyPress today key ctx).2) ctx keys.

(** ** Notions the further properties are stated with *)

(** The cell the first loop writes at index [j], read off the two words. *)
Definition exactAt (g s : list ascii) (j : nat) : option LetterFeedback :=
  match g !! j with
  | Some c => if decide (s !! j = Some c) then Some (LF c correct) else None
  | None => None
  end.

(** What a written cell at index [j] looks like: it carries the guess
    letter of its position and a status that is [correct] exactly when the
    secret holds the same letter there. *)
Definition wellFormed (g s : list ascii) (j : nat) (f : LetterFeedback) : Prop :=
  g !! j = Some (letter f) ∧ status f ≠ empty ∧
  (status f = correct ↔ s !! j = Some (letter f)).

(** Positions of the paired words where the first carries [c] and the second
    another letter. *)
Definition nonmatches (c : ascii) (pairs : list (ascii * ascii)) : nat :=
  length (filter (λ p, p.1 = c ∧ p.1 ≠ p.2) pairs).

(** The rank of a feedback status in the order of [rank]. *)
Definition srank (st : LetterStatus) : nat :=
  match st with
  | correct => 3
  | present => 2
  | absent => 1
  | empty => 0
  end%nat.

(** The best rank a feedback row holds for a key. *)
Definition bestIn (key : jsstring) (row : list LetterFeedback) : nat :=
  foldr (λ item best,
           if decide ([letter item] = key) then Nat.max (srank (status item)) best
           else best) 0%nat row.

(** Every key of the keyboard is one lower-case letter. *)
Definition lowerKeys (kb : gmap jsstring KeyStatus) : Prop :=
  ∀ key st, kb !! key = Some st → ∃ c, key = [c] ∧ is_az c = true.

(** The wins a guess distribution counts. *)
Definition distributionTotal (d : gmap Z Z) : Z :=
  map_fold (λ _ v total, v + total) 0 d.

(** The consistency of the counters of the statistics. *)
Definition statsConsistent (st : GameStats) : Prop :=
  0 ≤ currentStreak st ∧ currentStreak st ≤ bestStreak st ∧
  bestStreak st ≤ gamesWon st ∧ gamesWon st ≤ gamesPlayed st ∧
  distributionTotal (guessDistribution st) = gamesWon st ∧
  map_Forall (λ _ v, 0 ≤ v) (guessDistribution st).

(** The storage after a sequence of finished games, each given by its
    outcome and its number of guesses. *)
Definition recordAll (results : list (bool * Z)) (ls : Storage) : Storage :=
  foldl (λ ls r, (updateStats r.1 r.2 ls).2) ls results.

(** The store calls of a finished game. *)
Definition terminalCalls (gs : GameState) (won : bool) (n : nat) : list Call :=
  CallUpdateStats won n ::
  (if decide (gameMode gs = daily) then [CallSaveDaily won (wordLength gs) n]
   else []).

(** A game in progress has attempts left and has made no store call beyond
    [base]; a finished game has made the calls of one finished game. *)
Definition oneUpdate (base : list Call) (ctx : Context) : Prop :=
  let gs := gameState ctx in
  (length (guesses gs) ≤ maxAttempts gs)%nat ∧
  match gameStatus gs with
  | Playing => (length (guesses gs) < maxAttempts gs)%nat ∧ calls ctx = base
  | Won => calls ctx = base ++ terminalCalls gs true (length (guesses gs))
  | Lost => calls ctx = base ++ terminalCalls gs false (length (guesses gs))
  end.

(** The context with another buffer. *)
Definition withBuffer (ctx : Context) (buffer : jsstring) : Context :=
  let gs := gameState ctx in
  withGameState ctx
    (MkGame (secretWord gs) (guesses gs) buffer (gameStatus gs) (wordLength gs)
            (gameMode gs) (difficulty gs) (maxAttempts gs)).

(** The settings after a sequence of toggles, and how often a switch occurs
    in it. *)
Definition toggleAll (ts : list Toggle) (st : SettingsState) : SettingsState :=
  foldl (λ st t, toggle t st) st ts.

Definition flips (t : Toggle) (ts : list Toggle) : nat :=
  length (filter (λ t', t' = t) ts).


(** *** The evaluator as the specification words it *)

(** A multiset of letters: letter to remaining count. *)
Abbreviation LetterCounts := (ascii → Z).

(** Step 1: the multiset of the secret's letters. *)
Definition lettersOf (secret : list ascii) : LetterCounts :=
  λ c, Z.of_nat (occurrences c secret).

Definition takeOne (c : ascii) (remaining : LetterCounts) : LetterCounts :=
  λ x, if decide (x = c) then remaining x - 1 else remaining x.

(** Step 2, pass 1: every position where guess and secret agree takes one
    occurrence of its letter. *)
Definition exactPass (remaining : LetterCounts)
    (pairs : list (ascii * ascii)) : LetterCounts :=
  foldl (λ m p, if decide (p.1 = p.2) then takeOne p.1 m else m) remaining pairs.

(** Step 3, pass 2, left to right: a resolved position is [correct]; an
    unresolved one is [present] and takes one occurrence when its letter has
    a positive remaining count, and is [absent] otherwise. *)
Fixpoint restPass (remaining : LetterCounts)
    (pairs : list (ascii * ascii)) : list LetterFeedback :=
  match pairs with
  | [] => []
  | (g, s) :: rest =>
      if decide (g = s) then LF g correct :: restPass remaining rest
      else if 0 <? remaining g
           then LF g present :: restPass (takeOne g remaining) rest
           else LF g absent :: restPass remaining rest
  end.

Definition evaluate_spec (guess secret : list ascii) : list LetterFeedback :=
  let pairs := zip guess secret in
  restPass (exactPass (lettersOf secret) pairs) pairs.

(** *** The daily hash as the specification words it *)

(** The value in the signed 32-bit range that differs from [z] by a multiple
    of 2^32. *)
Definition signed32 (z : Z) : Z :=
  let r := z mod 2 ^ 32 in if r <? 2 ^ 31 then r else r - 2 ^ 32.

Definition hash_spec (chars : list ascii) : Z :=
  foldl (λ hash c, signed32 (hash * 32 - hash + Z.of_nat (nat_of_ascii c)))
        0 chars.

(** *** Counters and histories *)

(** A counter that [++] moves by exactly one: an integer from -2^53 to
    2^53 - 1. *)
Definition safeCount (x : Z) : Prop := - 2 ^ 53 ≤ x < 2 ^ 53.


(** What the storage holds as statistics, with the all-zero statistics for a
    missing entry. *)
Definition storedStats (ls : Storage) : GameStats :=
  match wordgame_stats ls with
  | Some st => st
  | None => MkStats 0 0 0 0 ∅
  end.

(** The counters are counts with room for [n] more games below 2^53. *)
Definition countersHaveRoom (st : GameStats) (n : nat) : Prop :=
  (0 ≤ gamesPlayed st ∧ gamesPlayed st + Z.of_nat n ≤ 2 ^ 53) ∧
  (0 ≤ gamesWon st ∧ gamesWon st + Z.of_nat n ≤ 2 ^ 53) ∧
  (0 ≤ currentStreak st ∧ currentStreak st + Z.of_nat n ≤ 2 ^ 53).

(** An input [submitGuess] takes: of the session's length and, lower-cased,
    of the letters a-z. *)
Definition acceptable (w : WordLength) (input : jsstring) : bool :=
  Nat.eqb (length input) (wl w) && forallb is_az (toLowerCase input).

(** The record of an accepted input. *)
Definition recordOf (secret input : jsstring) : Guess :=
  MkGuess (toLowerCase input)
          (cells (getGuessFeedback (toLowerCase input) secret)).

(** The buffer holds lower-case letters and no more than the word length. *)
Definition bufferTyped (ctx : Context) : Prop :=
  forallb is_az (currentGuess (gameState ctx)) = true ∧
  (length (currentGuess (gameState ctx)) ≤ wl (wordLength (gameState ctx)))%nat.

(** * Proofs *)

(** ** Arrays *)

Section arrays.
Context {A : Type}.
Implicit Types (a : JsArray A) (v : A) (i j : nat).

Lemma arr_get_nil i : arr_get ([] : JsArray A) i = None.
Proof. reflexivity. Qed.

Lemma arr_get_ge a i : (length a ≤ i)%nat → arr_get a i = None.
Proof. intros H. unfold arr_get. by rewrite lookup_ge_None_2. Qed.

Lemma arr_get_Some_lt a i v : arr_get a i = Some v → (i < length a)%nat.
Proof.
  intros H. destruct (decide (i < length a)%nat) as [|Hn]; [done|].
  rewrite arr_get_ge in H; [done|lia].
Qed.

Lemma length_arr_set a i v :
  length (arr_set i v a) = (length a `max` S i)%nat.
Proof.
  unfold arr_set. case_decide.
  - rewrite length_insert. lia.
  - rewrite !length_app, length_replicate. simpl. lia.
Qed.

Lemma arr_get_set a i j v :
  arr_get (arr_set i v a) j = if decide (j = i) then Some v else arr_get a j.
Proof.
  unfold arr_get, arr_set. case_decide as Hi.
  - case_decide as Hj.
    + subst. by rewrite list_lookup_insert_eq.
    + by rewrite list_lookup_insert_ne.
  - destruct (decide (j < length a)%nat) as [Hlt|Hge].
    + rewrite lookup_app_l by done. case_decide; [lia|done].
    + rewrite lookup_app_r by lia.
      rewrite (lookup_ge_None_2 a j) by lia. simpl.
      destruct (decide (j - length a < i - length a)%nat) as [Hl|Hl].
      * rewrite lookup_app_l by (rewrite length_replicate; lia).
        rewrite lookup_replicate_2 by lia. simpl. case_decide; [lia|done].
      * rewrite lookup_app_r by (rewrite length_replicate; lia).
        rewrite length_replicate. case_decide as Hj.
        -- subst. by replace (i - length a - (i - length a))%nat with 0%nat by lia.
        -- rewrite lookup_ge_None_2; [done|]. simpl. lia.
Qed.

(** An array whose cells are all written is the list of its cells. *)
Lemma dense_eq a (l : list A) :
  length a = length l →
  (∀ j, (j < length l)%nat → arr_get a j = l !! j) →
  a = Some <$> l.
Proof.
  intros Hlen Hget. apply list_eq. intros j.
  rewrite list_lookup_fmap.
  destruct (decide (j < length l)%nat) as [Hlt|Hge].
  - specialize (Hget j Hlt). unfold arr_get in Hget.
    destruct (lookup_lt_is_Some_2 l j Hlt) as [x Hx].
    rewrite Hx in Hget |- *.
    destruct (a !! j) as [[y|]|] eqn:Ha; simpl in *; try done.
    by simplify_eq.
  - rewrite !lookup_ge_None_2; [done| lia | lia].
Qed.

Lemma cells_dense (l : list A) : cells (Some <$> l) = l.
Proof. unfold cells. induction l; simpl; [done|]. by f_equal. Qed.
End arrays.

(** ** The loops of [getGuessFeedback] compute the two passes *)

Lemma hasRemaining_spec (m : gmap ascii Z) c :
  hasRemaining m c = (0 <? default 0 (m !! c)).
Proof.
  unfold hasRemaining. destruct (m !! c) as [n|]; simpl; [|done].
  destruct (Z.eqb_spec n 0), (Z.ltb_spec 0 n); simpl; try done; lia.
Qed.

Lemma assignRest_app m l1 l2 :
  assignRest m (l1 ++ l2) = assignRest m l1 ++ assignRest (restCounts m l1) l2.
Proof.
  revert m. induction l1 as [|[g s] l1 IH]; intros m; simpl; [done|].
  repeat case_match; simpl; by rewrite IH.
Qed.

Lemma restCounts_app m l1 l2 :
  restCounts m (l1 ++ l2) = restCounts (restCounts m l1) l2.
Proof.
  revert m. induction l1 as [|[g s] l1 IH]; intros m; simpl; [done|].
  repeat case_match; by rewrite IH.
Qed.

Lemma length_assignRest m l : length (assignRest m l) = length l.
Proof.
  revert m. induction l as [|[g s] l IH]; intros m; simpl; [done|].
  repeat case_match; simpl; by rewrite IH.
Qed.

Lemma length_twoPass g s :
  length g = length s → length (twoPass g s) = length g.
Proof.
  intros H. unfold twoPass. rewrite length_assignRest, length_zip_with. lia.
Qed.

Lemma foldl_fixed {S I} (f : S → I → S) (st : S) (l : list I) :
  (∀ i, i ∈ l → f st i = st) → foldl f st l = st.
Proof.
  induction l as [|i l IH]; simpl; intros H; [done|].
  rewrite H by set_solver. apply IH. intros j Hj. apply H. set_solver.
Qed.

Lemma lookup_snoc {A} (l : list A) (x : A) (j : nat) :
  (l ++ [x]) !! j =
    if decide (j < length l)%nat then l !! j
    else if decide (j = length l) then Some x else None.
Proof.
  repeat case_decide.
  - by rewrite lookup_app_l.
  - subst. rewrite lookup_app_r by lia. by rewrite Nat.sub_diag.
  - rewrite lookup_ge_None_2; [done|]. rewrite length_app. simpl. lia.
Qed.

Section loops.
Variables g s : list ascii.
Hypothesis Hlen : length g = length s.

Let pairs := zip g s.
Let st0 := MkEval [] [] (countChars s).
Let st1 := foldl (firstPass g s) st0 (seq 0 (length g)).
Let m1 := resolveExact (countChars s) pairs.

Lemma pairs_lookup k c :
  g !! k = Some c → ∃ d, s !! k = Some d ∧ pairs !! k = Some (c, d).
Proof.
  intros Hg. destruct (lookup_lt_is_Some_2 s k) as [d Hd].
  { rewrite <- Hlen. by eapply lookup_lt_Some. }
  exists d. split; [done|]. unfold pairs. apply lookup_zip_with_Some. eauto.
Qed.

Lemma length_pairs : length pairs = length g.
Proof. unfold pairs. rewrite length_zip_with. lia. Qed.

Lemma firstPass_prefix k :
  (k ≤ length g)%nat →
  let st := foldl (firstPass g s) st0 (seq 0 k) in
  secretCharCounts st = resolveExact (countChars s) (take k pairs) ∧
  (∀ i, i ∈ exactMatchedIndices st ↔ (i < k)%nat ∧ is_Some (exactCell pairs i)) ∧
  (∀ j, arr_get (feedback st) j = if decide (j < k)%nat then exactCell pairs j else None) ∧
  (length (feedback st) ≤ k)%nat.
Proof.
  induction k as [|k IH]; intros Hk; cbv zeta.
  - simpl. split_and!; [done| |done|done].
    intros i. split; [by intros ?%elem_of_nil | lia].
  - destruct IH as (Hc & Hm & Hf & Hl); [lia|].
    rewrite seq_S, foldl_app. simpl.
    set (st := foldl (firstPass g s) st0 (seq 0 k)) in *.
    destruct (lookup_lt_is_Some_2 g k) as [c Hg]; [lia|].
    destruct (pairs_lookup k c Hg) as (d & Hs & Hp).
    rewrite (take_S_r _ _ _ Hp). unfold resolveExact. rewrite foldl_app. simpl.
    fold (resolveExact (countChars s) (take k pairs)).
    unfold firstPass. rewrite Hg, Hs.
    assert (Hcell : exactCell pairs k = if decide (c = d) then Some (LF c correct) else None).
    { unfold exactCell. by rewrite Hp. }
    destruct (decide (c = d)) as [->|Hne].
    + rewrite decide_True by done. simpl. split_and!.
      * by rewrite Hc.
      * intros i. rewrite elem_of_app, Hm, list_elem_of_singleton.
        split.
        -- intros [[? ?]| ->]; [split; [lia|done]|]. split; [lia|]. by rewrite Hcell.
        -- intros [Hi Hsome]. destruct (decide (i = k)); [by right|left]. split; [lia|done].
      * intros j. rewrite arr_get_set, Hf.
        repeat case_decide; subst; try done; try lia.
      * rewrite length_arr_set. lia.
    + rewrite decide_False by congruence. split_and!.
      * done.
      * intros i. rewrite Hm. split.
        -- intros [? ?]. split; [lia|done].
        -- intros [Hi Hsome]. split; [|done].
           destruct (decide (i = k)) as [->|]; [|lia].
           rewrite Hcell in Hsome. by destruct Hsome.
      * intros j. rewrite Hf.
        destruct (decide (j = k)) as [->|].
        -- rewrite Hcell, decide_False, decide_True by lia. done.
        -- repeat case_decide; try done; lia.
      * lia.
Qed.
Lemma firstPass_done :
  secretCharCounts st1 = m1 ∧
  (∀ i, i ∈ exactMatchedIndices st1 ↔ is_Some (exactCell pairs i)) ∧
  (∀ j, arr_get (feedback st1) j = exactCell pairs j) ∧
  (length (feedback st1) ≤ length g)%nat.
Proof.
  destruct (firstPass_prefix (length g)) as (Hc & Hm & Hf & Hl); [lia|].
  fold st1 in Hc, Hm, Hf, Hl.
  assert (Hout : ∀ j, ¬ (j < length g)%nat → exactCell pairs j = None).
  { intros j Hj. unfold exactCell.
    rewrite lookup_ge_None_2; [done|]. rewrite length_pairs. lia. }
  split_and!.
  - rewrite Hc. unfold m1. by rewrite take_ge by (rewrite length_pairs; lia).
  - intros i. rewrite Hm. split; [by intros [? ?]|].
    intros Hsome. split; [|done].
    destruct (decide (i < length g)%nat); [done|].
    rewrite Hout in Hsome by done. by destruct Hsome.
  - intros j. rewrite Hf. case_decide; [done|]. by rewrite Hout.
  - done.
Qed.

Lemma secondPass_prefix k :
  (k ≤ length g)%nat →
  let st := foldl (secondPass g) st1 (seq 0 k) in
  exactMatchedIndices st = exactMatchedIndices st1 ∧
  secretCharCounts st = restCounts m1 (take k pairs) ∧
  (∀ j, arr_get (feedback st) j =
          if decide (j < k)%nat then assignRest m1 (take k pairs) !! j
          else exactCell pairs j) ∧
  (length (feedback st) ≤ length g)%nat.
Proof.
  destruct firstPass_done as (Hc1 & Hm1 & Hf1 & Hl1).
  induction k as [|k IH]; intros Hk; cbv zeta.
  - simpl. split_and!; try done.
  - destruct IH as (Hm & Hc & Hf & Hl); [lia|].
    rewrite seq_S, foldl_app. simpl.
    set (st := foldl (secondPass g) st1 (seq 0 k)) in *.
    destruct (lookup_lt_is_Some_2 g k) as [c Hg]; [lia|].
    destruct (pairs_lookup k c Hg) as (d & Hs & Hp).
    assert (Hcell : exactCell pairs k = if decide (c = d) then Some (LF c correct) else None).
    { unfold exactCell. by rewrite Hp. }
    assert (Hlk : length (assignRest m1 (take k pairs)) = k).
    { rewrite length_assignRest, length_take, length_pairs. lia. }
    rewrite (take_S_r _ _ _ Hp), assignRest_app, restCounts_app.
    unfold secondPass. rewrite Hm, Hg, hasRemaining_spec, Hc.
    simpl assignRest. simpl restCounts.
    destruct (decide (c = d)) as [->|Hne].
    + rewrite bool_decide_eq_true_2 by (apply Hm1; by rewrite Hcell).
      split_and!; try done.
      intros j. rewrite Hf, lookup_snoc, Hlk.
      repeat case_decide; subst; try done; try lia.
    + rewrite bool_decide_eq_false_2
        by (rewrite Hm1, Hcell; by intros [? ?]).
      destruct (0 <? default 0 (restCounts m1 (take k pairs) !! c)); simpl.
      * split_and!; try done.
        -- intros j. rewrite arr_get_set, Hf, lookup_snoc, Hlk.
           repeat case_decide; subst; try done; try lia.
        -- rewrite length_arr_set. lia.
      * split_and!; try done.
        -- intros j. rewrite arr_get_set, Hf, lookup_snoc, Hlk.
           repeat case_decide; subst; try done; try lia.
        -- rewrite length_arr_set. lia.
Qed.

(** The array the loops leave is the row of the two passes, without a hole. *)
Lemma feedbackLoops_twoPass :
  feedback (feedbackLoops g s) = Some <$> twoPass g s.
Proof.
  destruct (secondPass_prefix (length g)) as (_ & _ & Hf & Hl); [lia|].
  unfold feedbackLoops. fold st0. fold st1.
  set (st2 := foldl (secondPass g) st1 (seq 0 (length g))) in *.
  rewrite take_ge in Hf by (rewrite length_pairs; lia).
  fold (twoPass g s) in Hf.
  assert (Hget : ∀ j, (j < length (twoPass g s))%nat →
                      arr_get (feedback st2) j = twoPass g s !! j).
  { intros j Hj. rewrite length_twoPass in Hj by done.
    rewrite Hf. by rewrite decide_True. }
  rewrite foldl_fixed.
  - apply dense_eq; [|done].
    rewrite length_twoPass by done.
    destruct (decide (length g = 0%nat)) as [Hz|Hnz]; [lia|].
    destruct (lookup_lt_is_Some_2 (twoPass g s) (length g - 1)) as [x Hx].
    { rewrite length_twoPass by done. lia. }
    specialize (Hget (length g - 1)%nat). rewrite Hx in Hget.
    apply arr_get_Some_lt in Hget; [lia|].
    rewrite length_twoPass by done. lia.
  - intros i Hi. apply elem_of_seq in Hi.
    unfold fillPass. rewrite Hget by (rewrite length_twoPass by done; lia).
    destruct (lookup_lt_is_Some_2 (twoPass g s) i) as [x ->]; [|done].
    rewrite length_twoPass by done. lia.
Qed.
End loops.

(** ** Counting on the two passes *)

Lemma cnt_decrement_ne m c d : c ≠ d → cnt (decrement d m) c = cnt m c.
Proof. intros H. unfold cnt, decrement. by rewrite lookup_alter_ne. Qed.

Lemma cnt_decrement_pos m c : 0 < cnt m c → cnt (decrement c m) c = cnt m c - 1.
Proof.
  unfold cnt, decrement. rewrite lookup_alter_eq.
  destruct (m !! c); simpl; lia.
Qed.

Lemma cnt_decrement_le m c : cnt m c ≤ 0 → cnt (decrement c m) c ≤ 0.
Proof.
  unfold cnt, decrement. rewrite lookup_alter_eq.
  destruct (m !! c); simpl; lia.
Qed.

Lemma cnt_countChars_from m w c :
  cnt (foldl (λ m c, <[c := default 0 (m !! c) + 1]> m) m w) c
  = cnt m c + Z.of_nat (occurrences c w).
Proof.
  revert m. induction w as [|x w IH]; intros m; simpl.
  - unfold occurrences. simpl. lia.
  - rewrite IH. unfold occurrences. rewrite filter_cons.
    unfold cnt at 1. destruct (decide (x = c)) as [->|Hne].
    + rewrite lookup_insert_eq. simpl. unfold cnt. lia.
    + rewrite lookup_insert_ne by done. fold (cnt m c). lia.
Qed.

Lemma cnt_countChars w c : cnt (countChars w) c = Z.of_nat (occurrences c w).
Proof. unfold countChars. rewrite cnt_countChars_from. by unfold cnt. Qed.

Lemma matches_cons c p pairs :
  matches c (p :: pairs)
  = ((if decide (p.1 = c ∧ p.2 = c) then 1 else 0) + matches c pairs)%nat.
Proof. unfold matches. rewrite filter_cons. by case_decide. Qed.

Lemma credited_cons c f fb :
  credited c (f :: fb)
  = ((if decide (letter f = c ∧ (status f = correct ∨ status f = present))
      then 1 else 0) + credited c fb)%nat.
Proof. unfold credited. rewrite filter_cons. by case_decide. Qed.

Lemma matches_le_occurrences c pairs :
  (matches c pairs ≤ occurrences c (pairs.*2))%nat.
Proof.
  induction pairs as [|[a b] pairs IH]; [done|].
  rewrite matches_cons. unfold occurrences in *. rewrite fmap_cons, filter_cons.
  simpl. repeat case_decide; simpl; try lia. naive_solver.
Qed.

(** After pass 1 no more of a letter remains than the secret holds of it
    beyond its exact matches. *)
Lemma resolveExact_cnt m pairs c :
  cnt (resolveExact m pairs) c ≤ Z.max 0 (cnt m c - Z.of_nat (matches c pairs)).
Proof.
  revert m. induction pairs as [|[a b] pairs IH]; intros m.
  - simpl. unfold matches. simpl. lia.
  - unfold resolveExact. simpl. fold (resolveExact (if decide (a = b) then decrement a m else m) pairs).
    rewrite matches_cons. simpl.
    etrans; [apply IH|].
    destruct (decide (a = b)) as [->|Hab].
    + destruct (decide (b = c)) as [->|Hbc].
      * rewrite decide_True by done.
        destruct (decide (0 < cnt m c)).
        -- rewrite cnt_decrement_pos by done. lia.
        -- pose proof (cnt_decrement_le m c). lia.
      * rewrite decide_False by naive_solver.
        rewrite cnt_decrement_ne by done. lia.
    + rewrite decide_False by naive_solver. lia.
Qed.

(** Pass 2 credits a letter at its exact matches and at most once more for
    every occurrence that remains. *)
Lemma assignRest_credited m pairs c :
  Z.of_nat (credited c (assignRest m pairs))
  ≤ Z.of_nat (matches c pairs) + Z.max 0 (cnt m c).
Proof.
  revert m. induction pairs as [|[a b] pairs IH]; intros m.
  - simpl. unfold credited, matches. simpl. lia.
  - simpl. rewrite matches_cons. simpl. destruct (decide (a = b)) as [->|Hab].
    + rewrite credited_cons. simpl. specialize (IH m).
      repeat case_decide; try lia; naive_solver.
    + fold (cnt m a). destruct (Z.ltb_spec 0 (cnt m a)) as [Hpos|Hle].
      * rewrite credited_cons. simpl. specialize (IH (decrement a m)).
        rewrite (decide_False (P := a = c ∧ b = c)) by naive_solver.
        destruct (decide (a = c)) as [->|Hac].
        -- rewrite decide_True by naive_solver.
           rewrite cnt_decrement_pos in IH by done. lia.
        -- rewrite decide_False by naive_solver.
           rewrite cnt_decrement_ne in IH by done. lia.
      * rewrite credited_cons. simpl. specialize (IH m).
        rewrite (decide_False (P := a = c ∧ b = c)) by naive_solver.
        rewrite decide_False by naive_solver. lia.
Qed.

Lemma twoPass_credited g s c :
  length g = length s →
  (credited c (twoPass g s) ≤ occurrences c s)%nat.
Proof.
  intros Hlen. unfold twoPass.
  pose proof (assignRest_credited (resolveExact (countChars s) (zip g s)) (zip g s) c) as H1.
  pose proof (resolveExact_cnt (countChars s) (zip g s) c) as H2.
  pose proof (matches_le_occurrences c (zip g s)) as H3.
  rewrite snd_zip in H3 by lia.
  rewrite cnt_countChars in H2. lia.
Qed.

Lemma assignRest_letters m pairs : letter <$> assignRest m pairs = pairs.*1.
Proof.
  revert m. induction pairs as [|[a b] pairs IH]; intros m; simpl; [done|].
  repeat case_match; simpl; by rewrite IH.
Qed.

Lemma twoPass_letters g s : length g = length s → letter <$> twoPass g s = g.
Proof.
  intros H. unfold twoPass. rewrite assignRest_letters. apply fst_zip. lia.
Qed.

Lemma assignRest_all_correct m pairs :
  Forall (λ f, status f = correct) (assignRest m pairs)
  ↔ Forall (λ p, p.1 = p.2) pairs.
Proof.
  revert m. induction pairs as [|[a b] pairs IH]; intros m; simpl.
  - split; constructor.
  - repeat case_match; rewrite !Forall_cons, ?IH; simpl; naive_solver.
Qed.

Lemma zip_diagonal (g s : list ascii) :
  length g = length s → Forall (λ p, p.1 = p.2) (zip g s) ↔ g = s.
Proof.
  revert s. induction g as [|a g IH]; intros [|b s] Hlen; simpl in *; try done.
  rewrite Forall_cons, IH by lia. simpl. naive_solver.
Qed.

(** ** The evaluator *)

Lemma length_toLowerCase w : length (toLowerCase w) = length w.
Proof. unfold toLowerCase. by rewrite length_fmap. Qed.

Lemma lower_char_idemp c : lower_char (lower_char c) = lower_char c.
Proof. by destruct c as [[] [] [] [] [] [] [] []]. Qed.

Lemma toLowerCase_idemp w : toLowerCase (toLowerCase w) = toLowerCase w.
Proof.
  unfold toLowerCase. rewrite <- list_fmap_compose.
  apply list_fmap_ext. intros _ c _. apply lower_char_idemp.
Qed.

Lemma getGuessFeedback_dense guess secret :
  length guess = length secret →
  getGuessFeedback guess secret
  = Some <$> twoPass (toLowerCase guess) (toLowerCase secret).
Proof.
  intros H. unfold getGuessFeedback. apply feedbackLoops_twoPass.
  by rewrite !length_toLowerCase.
Qed.

Lemma arr_get_dense {A} (l : list A) i : arr_get (Some <$> l) i = l !! i.
Proof. unfold arr_get. rewrite list_lookup_fmap. by destruct (l !! i). Qed.

Example feedback_speed_abide :
  statuses (cells (getGuessFeedback (str "Speed") (str "ABIDE")))
  = [absent; absent; present; absent; present].
Proof. vm_compute. reflexivity. Qed.

Example feedback_llama_hello :
  statuses (cells (getGuessFeedback (str "llama") (str "hello")))
  = [present; present; absent; absent; absent].
Proof. vm_compute. reflexivity. Qed.

Example feedback_lllll_hello :
  statuses (cells (getGuessFeedback (str "lllll") (str "hello")))
  = [absent; absent; correct; correct; absent].
Proof. vm_compute. reflexivity. Qed.

(** C2, as stated: the guess "eerie" against the secret "speed" would be
    scored present, correct, absent, absent, absent. It is not: position 1
    holds 'e' in the guess and 'p' in the secret. *)
Lemma eerie_speed_not_as_stated :
  statuses (cells (getGuessFeedback (str "eerie") (str "speed")))
  ≠ [present; correct; absent; absent; absent].
Proof. vm_compute. discriminate. Qed.

(** C2, amended. The guess "eerie" against the secret "speed" has no exact
    match; the two occurrences of 'e' in the secret are used up by the first
    two guess positions, so the row is present, present, absent, absent,
    absent, with the guess letters in order. *)
Theorem eerie_speed_feedback :
  getGuessFeedback (str "eerie") (str "speed")
  = [Some (LF "e" present); Some (LF "e" present); Some (LF "r" absent);
     Some (LF "i" absent); Some (LF "e" absent)].
Proof. vm_compute. reflexivity. Qed.

(** C10. For a guess and a secret of equal length, [isGuessCorrect] holds
    exactly when [getGuessFeedback] marks every guess position [correct]. *)
Theorem isGuessCorrect_iff_all_correct (guess secret : jsstring) :
  length guess = length secret →
  isGuessCorrect guess secret = true ↔
  ∀ i, (i < length guess)%nat →
       status <$> arr_get (getGuessFeedback guess secret) i = Some correct.
Proof.
  intros Hlen.
  assert (Hl : length (toLowerCase guess) = length (toLowerCase secret))
    by (by rewrite !length_toLowerCase).
  rewrite getGuessFeedback_dense by done.
  unfold isGuessCorrect. rewrite bool_decide_eq_true.
  rewrite <- (zip_diagonal _ _ Hl).
  rewrite <- (assignRest_all_correct
                (resolveExact (countChars (toLowerCase secret))
                   (zip (toLowerCase guess) (toLowerCase secret)))).
  fold (twoPass (toLowerCase guess) (toLowerCase secret)).
  rewrite Forall_lookup. split.
  - intros H i Hi. rewrite arr_get_dense.
    destruct (lookup_lt_is_Some_2 (twoPass (toLowerCase guess) (toLowerCase secret)) i)
      as [f Hf].
    { rewrite length_twoPass, length_toLowerCase by done. done. }
    rewrite Hf. simpl. f_equal. by eapply H.
  - intros H i f Hf. specialize (H i). rewrite arr_get_dense, Hf in H.
    simpl in H. apply lookup_lt_Some in Hf.
    rewrite length_twoPass, length_toLowerCase in Hf by done.
    specialize (H Hf). by simplify_eq.
Qed.

Lemma isGuessCorrect_iff_all_correct_witness :
  isGuessCorrect (str "Speed") (str "speed") = true ∧
  ∀ i, (i < length (str "Speed"))%nat →
       status <$> arr_get (getGuessFeedback (str "Speed") (str "speed")) i
       = Some correct.
Proof.
  split; [reflexivity|].
  apply (isGuessCorrect_iff_all_correct (str "Speed") (str "speed") eq_refl).
  reflexivity.
Defined.

(** ** The hint summary *)

(** An index loop that reads [l !! i] is a fold over [l]. *)
Lemma foldl_index {A S} (f : S → A → S) (pre l : list A) (a : S) :
  foldl (λ acc i, match (pre ++ l) !! i with Some x => f acc x | None => acc end)
        a (seq (length pre) (length l))
  = foldl f a l.
Proof.
  revert pre a. induction l as [|x l IH]; intros pre a; simpl; [done|].
  rewrite list_lookup_middle by done.
  specialize (IH (pre ++ [x]) (f a x)).
  rewrite <- app_assoc, length_app, Nat.add_1_r in IH. exact IH.
Qed.

Lemma foldl_ext_elem {A S} (f h : S → A → S) (l : list A) (a : S) :
  (∀ acc x, x ∈ l → f acc x = h acc x) → foldl f a l = foldl h a l.
Proof.
  revert a. induction l as [|x l IH]; intros a H; simpl; [done|].
  rewrite H by set_solver. apply IH. intros acc y Hy. apply H. set_solver.
Qed.

Lemma correctPosition_zip (g s : list ascii) :
  length g = length s →
  foldl (λ n i, if decide (g !! i = s !! i) then S n else n) 0%nat
        (seq 0 (length g))
  = length (filter (λ p, p.1 = p.2) (zip g s)).
Proof.
  intros Hlen.
  assert (Hgen : ∀ (pairs : list (ascii * ascii)) n,
    foldl (λ n p, if decide (p.1 = p.2) then S n else n) n pairs
    = (n + length (filter (λ p, p.1 = p.2) pairs))%nat).
  { induction pairs as [|p pairs IH]; intros n; simpl; [lia|].
    rewrite IH, filter_cons. case_decide; simpl; lia. }
  rewrite <- (Nat.add_0_l (length (filter _ _))), <- Hgen.
  rewrite <- (foldl_index _ [] (zip g s)). simpl.
  rewrite length_zip_with, <- Hlen, Nat.min_id.
  apply foldl_ext_elem. intros n i Hi. apply elem_of_seq in Hi.
  destruct (lookup_lt_is_Some_2 g i) as [a Ha]; [lia|].
  destruct (lookup_lt_is_Some_2 s i) as [b Hb]; [lia|].
  rewrite Ha, Hb.
  rewrite (proj2 (lookup_zip_with_Some pair g s i (a, b)))
    by (exists a, b; done).
  simpl. repeat case_decide; naive_solver.
Qed.

Lemma countLetter_fold (S : gset ascii) (l : list ascii) n (counted : gset ascii) :
  n = size counted →
  let r := foldl (countLetter S) (n, counted) l in
  r.2 = counted ∪ (list_to_set l ∩ S) ∧ r.1 = size r.2.
Proof.
  revert n counted. induction l as [|x l IH]; intros n counted Hn; cbv zeta.
  - simpl. split; [set_solver|done].
  - simpl. destruct (decide (x ∈ S ∧ x ∉ counted)) as [Hx|Hx].
    + replace (countLetter S (n, counted) x)
        with (Datatypes.S n, {[x]} ∪ counted)
        by (unfold countLetter; simpl; by rewrite decide_True).
      destruct (IH (Datatypes.S n) ({[x]} ∪ counted)) as [H2 H1].
      { rewrite size_union by set_solver. rewrite size_singleton. lia. }
      split; [|exact H1]. rewrite H2. set_solver.
    + replace (countLetter S (n, counted) x) with (n, counted)
        by (unfold countLetter; simpl; by rewrite decide_False).
      destruct (IH n counted Hn) as [H2 H1].
      split; [|exact H1]. rewrite H2.
      apply not_and_l in Hx. destruct Hx as [Hx|Hx]; [set_solver|].
      apply dec_stable in Hx. set_solver.
Qed.

(** C8. For inputs of equal length, lower-cased, [getHintSummary] gives as
    [correctPosition] the number of positions where guess and secret agree
    and as [lettersInWord] the number of distinct letters of the guess that
    occur in the secret; for "speed" against "speed" that is 4 and 5. *)
Theorem getHintSummary_counts (guess secret : jsstring) :
  length guess = length secret →
  correctPosition (getHintSummary guess secret)
    = length (filter (λ p, p.1 = p.2)
                (zip (toLowerCase guess) (toLowerCase secret))) ∧
  lettersInWord (getHintSummary guess secret)
    = size (list_to_set (toLowerCase guess) ∩ list_to_set (toLowerCase secret)
            : gset ascii) ∧
  getHintSummary (str "speed") (str "speed") = MkHint 4 5.
Proof.
  intros Hlen. unfold getHintSummary at 1 2. simpl. split_and!.
  - apply correctPosition_zip. by rewrite !length_toLowerCase.
  - destruct (countLetter_fold (list_to_set (toLowerCase secret))
                (toLowerCase guess) 0 ∅) as [H2 H1]; [by rewrite size_empty|].
    rewrite H1, H2. f_equal. set_solver.
  - vm_compute. reflexivity.
Qed.

Lemma getHintSummary_counts_witness :
  correctPosition (getHintSummary (str "crane") (str "trace")) = 3%nat ∧
  lettersInWord (getHintSummary (str "crane") (str "trace")) = 4%nat.
Proof.
  pose proof (getHintSummary_counts (str "crane") (str "trace") eq_refl)
    as (Hpos & Hletters & _).
  split; [rewrite Hpos | rewrite Hletters]; vm_compute; reflexivity.
Defined.

(** ** The statistics store *)

Lemma js_add_one x : safeCount x → js_add x 1 = x + 1.
Proof.
  unfold safeCount, js_add, roundDouble. intros H. cbv zeta.
  rewrite (proj2 (Z.leb_le (Z.abs (x + 1)) (2 ^ 53))); [done|lia].
Qed.

Example js_add_at_2_53 : js_add (2 ^ 53) 1 = 2 ^ 53.
Proof. vm_compute. reflexivity. Qed.

Example js_add_past_2_53 : js_add (2 ^ 53 + 2) 1 = 2 ^ 53 + 4.
Proof. vm_compute. reflexivity. Qed.




(** ** The daily word *)

Lemma toInt32_mod x : toInt32 x mod 2 ^ 32 = x mod 2 ^ 32.
Proof.
  unfold toInt32.
  rewrite <- Zminus_mod_idemp_l, Z.mod_mod by lia.
  rewrite Zminus_mod_idemp_l. f_equal. lia.
Qed.

Lemma toInt32_congr x y : x mod 2 ^ 32 = y mod 2 ^ 32 → toInt32 x = toInt32 y.
Proof.
  intros H. unfold toInt32. f_equal.
  rewrite <- (Zplus_mod_idemp_l x), <- (Zplus_mod_idemp_l y). by rewrite H.
Qed.

Lemma hashStep_spec hash code :
  js_and (js_shl hash 5 - hash + code) (js_shl hash 5 - hash + code)
  = toInt32 (hash * 32 - hash + code).
Proof.
  unfold js_and, js_shl. rewrite Z.land_diag. apply toInt32_congr.
  rewrite Z.shiftl_mul_pow2 by lia.
  rewrite <- Zplus_mod_idemp_l, <- Zminus_mod_idemp_l, toInt32_mod.
  rewrite <- Zmult_mod_idemp_l, toInt32_mod, Zmult_mod_idemp_l.
  rewrite Zminus_mod_idemp_l, Zplus_mod_idemp_l. f_equal.
Qed.

Lemma dateHash_specHash chars : dateHash chars = specHash chars.
Proof.
  unfold dateHash, specHash.
  rewrite <- (foldl_index _ [] chars). simpl.
  apply foldl_ext_elem. intros hash i _.
  unfold hashStep, charCodeAt. destruct (chars !! i); simpl; [|done].
  apply hashStep_spec.
Qed.

(** New Year's Day 2026: the date string has month 0 and a negative hash. *)
Example dateString_new_year : dateString (MkToday 2026 0 1) = str "2026-0-1".
Proof. vm_compute. reflexivity. Qed.

Example dateHash_new_year : dateHash (str "2026-0-1") = -1920576887.
Proof. vm_compute. reflexivity. Qed.

Example getDailyWord_new_year :
  getDailyWord
    [str "hello"; str "world"; str "apple"; str "bread"; str "chair";
     str "dance"; str "earth"; str "flame"; str "grape"; str "house"]
    [str "garden"; str "banana"] Five (MkToday 2026 0 1)
  = Some (str "flame").
Proof. vm_compute. reflexivity. Qed.

Example getDailyWord_no_words : getDailyWord [] [] Six (MkToday 2026 0 1) = None.
Proof. reflexivity. Qed.

Lemma signed32_toInt32 z : signed32 z = toInt32 z.
Proof.
  unfold signed32, toInt32.
  change (2 ^ 32) with 4294967296. change (2 ^ 31) with 2147483648.
  destruct (Z.ltb_spec (z mod 4294967296) 2147483648);
    Z.div_mod_to_equations; lia.
Qed.

(** The loop of the code computes the hash of the specification. *)
Lemma dateHash_hash_spec chars : dateHash chars = hash_spec chars.
Proof.
  rewrite dateHash_specHash. unfold specHash, hash_spec.
  generalize 0. induction chars as [|c chars IH]; intros h; simpl; [done|].
  by rewrite signed32_toInt32, IH.
Qed.

Section DailyWord.
Variables FIVE_LETTER_WORDS SIX_LETTER_WORDS : list jsstring.

(** C9. For every date, [getDailyWord] returns the entry of the word list
    of the asked length at index |hash| mod the list's length, where hash
    folds [hash * 32 - hash + charCode], cut to signed 32 bits, over the
    characters of "{year}-{month}-{day}" (month zero-based); on an empty
    list there is no entry and the result is undefined. Hence two dates
    with the same year, month and day give the same word for the same
    length. *)
Theorem getDailyWord_deterministic (wordLength : WordLength) (today : Today) :
  let chars :=
    str (pretty (fullYear today)) ++ str "-" ++
    str (pretty (monthIndex today)) ++ str "-" ++
    str (pretty (dayOfMonth today)) in
  let wordList :=
    match wordLength with
    | Five => FIVE_LETTER_WORDS
    | Six => SIX_LETTER_WORDS
    end in
  getDailyWord FIVE_LETTER_WORDS SIX_LETTER_WORDS wordLength today
    = wordList
        !! Z.to_nat (Z.abs (hash_spec chars) mod Z.of_nat (length wordList)) ∧
  (wordList = [] →
   getDailyWord FIVE_LETTER_WORDS SIX_LETTER_WORDS wordLength today = None) ∧
  ∀ today',
    fullYear today' = fullYear today →
    monthIndex today' = monthIndex today →
    dayOfMonth today' = dayOfMonth today →
    getDailyWord FIVE_LETTER_WORDS SIX_LETTER_WORDS wordLength today'
    = getDailyWord FIVE_LETTER_WORDS SIX_LETTER_WORDS wordLength today.
Proof.
  cbv zeta.
  assert (Hlist : wordListFor FIVE_LETTER_WORDS SIX_LETTER_WORDS wordLength
                  = match wordLength with
                    | Five => FIVE_LETTER_WORDS
                    | Six => SIX_LETTER_WORDS
                    end) by (by destruct wordLength).
  split_and!.
  - unfold getDailyWord. rewrite dateHash_hash_spec, Hlist.
    case_decide as Hempty; [|done].
    apply length_zero_iff_nil in Hempty. by rewrite Hempty.
  - intros Hnil. unfold getDailyWord. rewrite Hlist, Hnil. done.
  - intros today' Hy Hm Hd. unfold getDailyWord, dateString.
    by rewrite Hy, Hm, Hd.
Qed.
End DailyWord.

Lemma getDailyWord_deterministic_witness :
  getDailyWord
    [str "hello"; str "world"; str "apple"; str "bread"; str "chair";
     str "dance"; str "earth"; str "flame"; str "grape"; str "house"]
    [str "garden"; str "banana"] Five (MkToday 2026 0 1)
  = Some (str "flame") ∧
  hash_spec (str "2026-0-1") = -1920576887.
Proof.
  split; [|by vm_compute].
  rewrite (proj1 (getDailyWord_deterministic
                    [str "hello"; str "world"; str "apple"; str "bread";
                     str "chair"; str "dance"; str "earth"; str "flame";
                     str "grape"; str "house"]
                    [str "garden"; str "banana"] Five (MkToday 2026 0 1))).
  vm_compute. reflexivity.
Defined.

(** ** The keyboard *)

Lemma keyboardStep_rank (kb : gmap jsstring KeyStatus)
    (item : LetterFeedback) (key : jsstring) :
  (rank (kb !! key) ≤ rank (keyboardStep kb item !! key))%nat.
Proof.
  unfold keyboardStep.
  destruct (decide (key = [letter item])) as [->|Hne].
  - repeat case_decide; rewrite ?lookup_insert_eq; try done.
    + destruct (kb !! [letter item]) as [[]|]; simpl; lia.
    + destruct (kb !! [letter item]) as [[]|]; simpl; try lia; naive_solver.
    + destruct (kb !! [letter item]) as [[]|]; simpl; try lia; naive_solver.
  - repeat case_decide; rewrite ?lookup_insert_ne by done; done.
Qed.

Lemma updateKeyboardStatus_rank (row : list LetterFeedback)
    (kb : gmap jsstring KeyStatus) (key : jsstring) :
  (rank (kb !! key) ≤ rank (updateKeyboardStatus row kb !! key))%nat.
Proof.
  unfold updateKeyboardStatus. revert kb.
  induction row as [|item row IH]; intros kb; simpl; [done|].
  etrans; [apply (keyboardStep_rank kb item key)|apply IH].
Qed.

(** C5. Under any sequence of guess feedbacks applied with
    [updateKeyboardStatus] the status recorded for a key never moves back in
    the order absent < present < correct: a key that is [correct] stays
    [correct], and a key that is [present] is never [absent] (nor
    unrecorded) afterwards. *)
Theorem keyboardStatus_monotone (rows : list (list LetterFeedback))
    (kb : gmap jsstring KeyStatus) (key : jsstring) :
  (rank (kb !! key) ≤ rank (keyboardAfter rows kb !! key))%nat ∧
  (kb !! key = Some key_correct →
   keyboardAfter rows kb !! key = Some key_correct) ∧
  (kb !! key = Some key_present →
   keyboardAfter rows kb !! key = Some key_present ∨
   keyboardAfter rows kb !! key = Some key_correct).
Proof.
  assert (Hrank : (rank (kb !! key) ≤ rank (keyboardAfter rows kb !! key))%nat).
  { unfold keyboardAfter. revert kb.
    induction rows as [|row rows IH]; intros kb; simpl; [done|].
    etrans; [apply (updateKeyboardStatus_rank row kb key)|apply IH]. }
  split_and!; [done| |]; intros Hkey; rewrite Hkey in Hrank;
    destruct (keyboardAfter rows kb !! key) as [[]|]; simpl in Hrank;
    try lia; auto.
Qed.

Lemma keyboardStatus_monotone_witness :
  keyboardAfter
    [cells (getGuessFeedback (str "store") (str "speed"));
     cells (getGuessFeedback (str "pasta") (str "speed"))]
    {[ str "s" := key_correct ]} !! str "s"
  = Some key_correct.
Proof.
  apply (keyboardStatus_monotone
           [cells (getGuessFeedback (str "store") (str "speed"));
            cells (getGuessFeedback (str "pasta") (str "speed"))]
           {[ str "s" := key_correct ]} (str "s")).
  reflexivity.
Defined.

(** ** The session *)

Lemma worldGame_started five six today r :
  startGame five six today r Five unlimited (Some (str "WORLD"))
            (initialContext (MkStorage None None))
  = Some worldGame.
Proof. reflexivity. Qed.

Lemma is_az_not_space c : is_az c = true → Ascii.is_space c = false.
Proof. by destruct c as [[] [] [] [] [] [] [] []]. Qed.

Lemma trimStart_length w : (length (trimStart w) ≤ length w)%nat.
Proof. induction w as [|c w IH]; simpl; [done|]. case_match; simpl; lia. Qed.

Lemma trimStart_same_length w : length (trimStart w) = length w → trimStart w = w.
Proof.
  destruct w as [|c w]; simpl; [done|]. case_match; [|done].
  pose proof (trimStart_length w). lia.
Qed.

Lemma trim_same_length w : length (trim w) = length w → trim w = w.
Proof.
  unfold trim. rewrite length_reverse. intros H.
  pose proof (trimStart_length w).
  pose proof (trimStart_length (reverse (trimStart w))) as H2.
  rewrite length_reverse in H2.
  rewrite (trimStart_same_length (reverse (trimStart w)))
    by (rewrite length_reverse; lia).
  rewrite reverse_involutive. apply trimStart_same_length. lia.
Qed.

Lemma trimStart_az w : forallb is_az w = true → trimStart w = w.
Proof.
  destruct w as [|c w]; simpl; [done|].
  intros [Hc _]%andb_prop. by rewrite is_az_not_space.
Qed.

Lemma forallb_reverse {A} (f : A → bool) l : forallb f (reverse l) = forallb f l.
Proof.
  induction l as [|x l IH]; simpl; [done|].
  rewrite reverse_cons, forallb_app, IH. simpl. destruct (f x), (forallb f l); done.
Qed.

Lemma trim_az w : forallb is_az w = true → trim w = w.
Proof.
  intros H. unfold trim. rewrite (trimStart_az w) by done.
  rewrite trimStart_az by (by rewrite forallb_reverse).
  apply reverse_involutive.
Qed.

(** On a lower-cased word of the session's length, [isValidWord] is the
    test that every character is one of a-z. *)
Lemma isValidWord_az (word : jsstring) (w : WordLength) :
  length word = wl w →
  isValidWord (toLowerCase word) (Some (wl w)) = forallb is_az (toLowerCase word).
Proof.
  intros Hlen. unfold isValidWord. rewrite toLowerCase_idemp.
  set (lw := toLowerCase word).
  assert (Hl : length lw = wl w) by (unfold lw; by rewrite length_toLowerCase).
  destruct (forallb is_az lw) eqn:Haz.
  - rewrite trim_az by done. rewrite Hl, Nat.eqb_refl. simpl.
    unfold test_az_plus. rewrite Haz.
    destruct w, lw; simpl in *; try done.
  - destruct (decide (length (trim lw) = wl w)) as [Heq|Hne].
    + rewrite trim_same_length by lia. rewrite Hl, Nat.eqb_refl. simpl.
      unfold test_az_plus. rewrite Haz. destruct w; simpl; by rewrite andb_false_r.
    + apply Nat.eqb_neq in Hne. rewrite Hne. simpl.
      by destruct (_ && _).
Qed.

(** What [submitGuess] rejects: a lower-cased input of another length than
    the session's, or with a character outside a-z. The session status is
    not looked at. A rejection leaves the context as it was. *)
Lemma submitGuess_rejects_iff today guess ctx :
  (submitGuess today guess ctx).1 = false ↔
  length (toLowerCase guess) ≠ wl (wordLength (gameState ctx)) ∨
  forallb is_az (toLowerCase guess) = false.
Proof.
  unfold submitGuess.
  destruct (Nat.eqb_spec (length (toLowerCase guess)) (wl (wordLength (gameState ctx))))
    as [Heq|Hne]; simpl.
  - rewrite length_toLowerCase in Heq.
    rewrite (isValidWord_az guess _ Heq).
    destruct (forallb is_az (toLowerCase guess)); simpl.
    + split; [|rewrite length_toLowerCase; naive_solver].
      repeat case_match; done.
    + naive_solver.
  - naive_solver.
Qed.

Lemma submitGuess_rejected_unchanged today guess ctx :
  (submitGuess today guess ctx).1 = false → (submitGuess today guess ctx).2 = ctx.
Proof.
  unfold submitGuess. repeat case_match; simpl; try done.
Qed.

Lemma isGuessCorrect_lower guess secret :
  isGuessCorrect (toLowerCase guess) secret = isGuessCorrect guess secret.
Proof. unfold isGuessCorrect. by rewrite toLowerCase_idemp. Qed.

(** C4. An accepted guess that is no exact match and brings the number of
    guesses to [maxAttempts] sets the status to lost and makes exactly one
    [updateStats(false, maxAttempts)] call, followed in daily mode by exactly
    one [saveDailyChallengeCompleted(false, wordLength, maxAttempts)] call
    and by no other call; the statistics shown and stored are those of that
    one update. *)
Theorem submitGuess_last_attempt_lost (today : Today) (guess : jsstring)
    (ctx : Context) :
  (submitGuess today guess ctx).1 = true →
  isGuessCorrect guess (secretWord (gameState ctx)) = false →
  S (length (guesses (gameState ctx))) = maxAttempts (gameState ctx) →
  let ctx' := (submitGuess today guess ctx).2 in
  let n := maxAttempts (gameState ctx) in
  gameStatus (gameState ctx') = Lost ∧
  length (guesses (gameState ctx')) = n ∧
  calls ctx' = calls ctx ++
     CallUpdateStats false n ::
     (if decide (gameMode (gameState ctx) = daily)
      then [CallSaveDaily false (wordLength (gameState ctx)) n] else []) ∧
  stats ctx' = (updateStats false (Z.of_nat n) (storage ctx)).1 ∧
  wordgame_stats (storage ctx') = Some (stats ctx').
Proof.
  intros Hacc Hwrong Hlast. cbv zeta. revert Hacc. unfold submitGuess.
  destruct (negb _); [done|]. destruct (negb _); [done|]. intros _.
  rewrite isGuessCorrect_lower, Hwrong, length_app. simpl.
  rewrite Nat.add_1_r, Hlast, Nat.leb_refl. simpl.
  case_decide; simpl; rewrite <- ?app_assoc; simpl.
  all: split_and!; try done; rewrite length_app; simpl; lia.
Qed.

Lemma submitGuess_last_attempt_lost_witness :
  let ctx := play (MkToday 2026 10 2)
               [str "hello"; str "apple"; str "bread"; str "chair"; str "dance"]
               worldGame in
  gameStatus (gameState ctx) = Playing ∧
  gameStatus (gameState (submitGuess (MkToday 2026 10 2) (str "earth") ctx).2)
  = Lost.
Proof.
  split; [reflexivity|].
  apply (submitGuess_last_attempt_lost (MkToday 2026 10 2) (str "earth"));
    reflexivity.
Defined.

(** C3, on the code: [submitGuess] does not look at the session status. On
    the game "world", once won with the first guess, a second submission of
    a well-formed word is accepted: it is appended to the guesses and the
    statistics are updated a second time. *)
Theorem submitGuess_accepts_after_win (today : Today) :
  let ctx1 := (submitGuess today (str "world") worldGame).2 in
  let r := submitGuess today (str "world") ctx1 in
  gameStatus (gameState ctx1) = Won ∧
  r.1 = true ∧
  length (guesses (gameState r.2)) = 2%nat ∧
  calls r.2 = [CallUpdateStats true 1; CallUpdateStats true 2] ∧
  gamesPlayed (stats r.2) = 2.
Proof. vm_compute. done. Qed.

(** What holds of [addLetter] and [removeLetter]: no change when the status
    is not playing or, for [addLetter], when the buffer is full or the key
    [letter.toUpperCase()] is recorded absent; otherwise [addLetter] appends
    the lower-cased letter. *)
Lemma addLetter_cases (letter : jsstring) (ctx : Context) :
  (gameStatus (gameState ctx) ≠ Playing ∨
   (wl (wordLength (gameState ctx)) ≤ length (currentGuess (gameState ctx)))%nat ∨
   keyboardStatus ctx !! toUpperCase letter = Some key_absent →
   addLetter letter ctx = ctx) ∧
  (gameStatus (gameState ctx) = Playing →
   (length (currentGuess (gameState ctx)) < wl (wordLength (gameState ctx)))%nat →
   keyboardStatus ctx !! toUpperCase letter ≠ Some key_absent →
   currentGuess (gameState (addLetter letter ctx))
   = currentGuess (gameState ctx) ++ toLowerCase letter).
Proof.
  unfold addLetter. split.
  - intros [Hs|[Hfull|Habs]].
    + case_decide; [done|]. rewrite (bool_decide_eq_false_2 _ Hs).
      by rewrite orb_true_r.
    + case_decide; [done|]. by rewrite (proj2 (Nat.leb_le _ _) Hfull).
    + by rewrite decide_True.
  - intros Hs Hroom Hkey. rewrite decide_False by done.
    rewrite (proj2 (Nat.leb_gt _ _) Hroom), (bool_decide_eq_true_2 _ Hs). done.
Qed.

Lemma removeLetter_not_playing (ctx : Context) :
  gameStatus (gameState ctx) ≠ Playing → removeLetter ctx = ctx.
Proof.
  intros Hs. unfold removeLetter. rewrite (bool_decide_eq_false_2 _ Hs).
  by rewrite orb_true_r.
Qed.

(** C6, on the code: the keyboard records letters under their lower-case
    key and [addLetter] looks the letter up under its upper-case key. On the
    game "world", after the guess "eagle" the letter e is recorded absent,
    the status is playing and the buffer is empty; [addLetter] of "E" (what
    the keyboard sends) and of "e" both put e into the buffer. *)
Theorem addLetter_absent_letter_typed (today : Today) :
  let ctx1 := (submitGuess today (str "eagle") worldGame).2 in
  keyboardStatus ctx1 !! str "e" = Some key_absent ∧
  gameStatus (gameState ctx1) = Playing ∧
  currentGuess (gameState ctx1) = [] ∧
  currentGuess (gameState (addLetter (str "E") ctx1)) = str "e" ∧
  currentGuess (gameState (addLetter (str "e") ctx1)) = str "e".
Proof. vm_compute. done. Qed.

(** * Further properties *)

(** ** The evaluator: exact credit *)

Lemma cnt_decrement_present m c :
  is_Some (m !! c) → cnt (decrement c m) c = cnt m c - 1.
Proof.
  intros [n Hn]. unfold cnt, decrement. rewrite lookup_alter_eq, Hn. simpl. lia.
Qed.

Lemma decrement_is_Some m c d : is_Some (decrement d m !! c) ↔ is_Some (m !! c).
Proof.
  unfold decrement. destruct (decide (d = c)) as [->|Hne].
  - rewrite lookup_alter_eq. apply fmap_is_Some.
  - by rewrite lookup_alter_ne.
Qed.

Lemma countChars_is_Some w c :
  (0 < occurrences c w)%nat → is_Some (countChars w !! c).
Proof.
  intros H. pose proof (cnt_countChars w c) as Hc. unfold cnt in Hc.
  destruct (countChars w !! c); [eauto|simpl in Hc; lia].
Qed.

Lemma nonmatches_cons c p pairs :
  nonmatches c (p :: pairs)
  = ((if decide (p.1 = c ∧ p.1 ≠ p.2) then 1 else 0) + nonmatches c pairs)%nat.
Proof. unfold nonmatches. rewrite filter_cons. by case_decide. Qed.

Lemma occurrences_cons c x w :
  occurrences c (x :: w)
  = ((if decide (x = c) then 1 else 0) + occurrences c w)%nat.
Proof. unfold occurrences. rewrite filter_cons. by case_decide. Qed.

Lemma occurrences_fst c (pairs : list (ascii * ascii)) :
  occurrences c (pairs.*1) = (matches c pairs + nonmatches c pairs)%nat.
Proof.
  induction pairs as [|[a b] pairs IH]; [done|].
  rewrite fmap_cons, occurrences_cons, matches_cons, nonmatches_cons, IH. simpl.
  destruct (decide (a = c)) as [->|Hac], (decide (c = b)) as [<-|Hcb];
    repeat case_decide; try lia; naive_solver.
Qed.

(** Pass 1 takes exactly the exact matches of a letter out of its count,
    as long as the letter has a count at all. *)
Lemma resolveExact_cnt_exact m pairs c :
  is_Some (m !! c) ∨ matches c pairs = 0%nat →
  cnt (resolveExact m pairs) c = cnt m c - Z.of_nat (matches c pairs).
Proof.
  revert m. induction pairs as [|[a b] pairs IH]; intros m Hm.
  - unfold matches. simpl. lia.
  - unfold resolveExact. simpl.
    fold (resolveExact (if decide (a = b) then decrement a m else m) pairs).
    rewrite matches_cons in Hm |- *. simpl in Hm |- *.
    destruct (decide (a = b)) as [->|Hab].
    + destruct (decide (b = c)) as [->|Hbc].
      * rewrite decide_True in Hm |- * by done.
        destruct Hm as [Hm|Hm]; [|lia].
        rewrite IH by (left; by apply decrement_is_Some).
        rewrite cnt_decrement_present by done. lia.
      * rewrite decide_False in Hm |- * by naive_solver.
        rewrite IH by (rewrite decrement_is_Some; naive_solver).
        rewrite cnt_decrement_ne by done. lia.
    + rewrite decide_False in Hm |- * by naive_solver.
      rewrite IH by naive_solver. lia.
Qed.

(** Pass 2 credits a letter at its exact matches and at as many of its other
    positions as occurrences remain. *)
Lemma assignRest_credited_exact m pairs c :
  0 ≤ cnt m c →
  Z.of_nat (credited c (assignRest m pairs))
  = Z.of_nat (matches c pairs) + Z.min (Z.of_nat (nonmatches c pairs)) (cnt m c).
Proof.
  revert m. induction pairs as [|[a b] pairs IH]; intros m Hm.
  - unfold credited, matches, nonmatches. simpl. lia.
  - simpl. rewrite matches_cons, nonmatches_cons. simpl.
    destruct (decide (a = b)) as [->|Hab].
    + rewrite credited_cons. simpl. specialize (IH m Hm).
      destruct (decide (b = c)) as [->|Hbc].
      * rewrite !decide_True by naive_solver.
        rewrite decide_False by naive_solver. lia.
      * rewrite !(decide_False (P := b = c ∧ _)) by naive_solver. lia.
    + fold (cnt m a). rewrite (decide_False (P := a = c ∧ b = c)) by naive_solver.
      destruct (Z.ltb_spec 0 (cnt m a)) as [Hpos|Hle]; rewrite credited_cons; simpl.
      * destruct (decide (a = c)) as [->|Hac].
        -- rewrite !decide_True by naive_solver.
           specialize (IH (decrement c m)).
           rewrite cnt_decrement_pos in IH by done. lia.
        -- rewrite !(decide_False (P := a = c ∧ _)) by naive_solver.
           specialize (IH (decrement a m)).
           rewrite cnt_decrement_ne in IH by done. lia.
      * specialize (IH m Hm). destruct (decide (a = c)) as [->|Hac].
        -- rewrite decide_False by naive_solver.
           rewrite decide_True by naive_solver. lia.
        -- rewrite !(decide_False (P := a = c ∧ _)) by naive_solver. lia.
Qed.

Lemma twoPass_credited_min g s c :
  length g = length s →
  credited c (twoPass g s) = Nat.min (occurrences c g) (occurrences c s).
Proof.
  intros Hlen. unfold twoPass.
  pose proof (matches_le_occurrences c (zip g s)) as Hle.
  rewrite snd_zip in Hle by lia.
  pose proof (occurrences_fst c (zip g s)) as Hg.
  rewrite fst_zip in Hg by lia.
  assert (Hcnt : cnt (resolveExact (countChars s) (zip g s)) c
                 = Z.of_nat (occurrences c s) - Z.of_nat (matches c (zip g s))).
  { rewrite resolveExact_cnt_exact, cnt_countChars; [done|].
    destruct (decide (0 < occurrences c s)%nat); [left|right; lia].
    by apply countChars_is_Some. }
  pose proof (assignRest_credited_exact
                (resolveExact (countChars s) (zip g s)) (zip g s) c) as H.
  rewrite Hcnt in H. lia.
Qed.

(** X1. For words of equal length, the positions credited to a letter
    ([correct] or [present]) are exactly as many as the smaller of its
    occurrences in the guess and in the secret, both lower-cased. *)
Theorem getGuessFeedback_credit_min (guess secret : jsstring) (c : ascii) :
  length guess = length secret →
  credited c (cells (getGuessFeedback guess secret))
  = Nat.min (occurrences c (toLowerCase guess))
            (occurrences c (toLowerCase secret)).
Proof.
  intros Hlen. rewrite getGuessFeedback_dense, cells_dense by done.
  apply twoPass_credited_min. by rewrite !length_toLowerCase.
Qed.

Lemma getGuessFeedback_credit_min_witness :
  credited "e" (cells (getGuessFeedback (str "geese") (str "elder"))) = 2%nat.
Proof.
  rewrite (getGuessFeedback_credit_min (str "geese") (str "elder") "e" eq_refl).
  reflexivity.
Defined.

Lemma occurrences_zero c w : occurrences c w = 0%nat ↔ c ∉ w.
Proof.
  induction w as [|x w IH]; [split; [by intros _ ?%elem_of_nil|done]|].
  rewrite occurrences_cons, not_elem_of_cons. case_decide; [|rewrite <- IH]; naive_solver lia.
Qed.

Lemma credited_le_letters c row :
  (credited c row ≤ occurrences c (letter <$> row))%nat.
Proof.
  induction row as [|f row IH]; [done|].
  rewrite fmap_cons, credited_cons, occurrences_cons.
  repeat case_decide; try lia; naive_solver.
Qed.

Lemma credited_all c row :
  credited c row = occurrences c (letter <$> row) →
  Forall (λ f, letter f = c → status f = correct ∨ status f = present) row.
Proof.
  induction row as [|f row IH]; [constructor|].
  rewrite fmap_cons, credited_cons, occurrences_cons. intros H.
  pose proof (credited_le_letters c row).
  constructor; [|apply IH]; repeat case_decide; try lia; naive_solver.
Qed.

Lemma credited_none c row :
  credited c row = 0%nat →
  Forall (λ f, letter f = c → status f ≠ correct ∧ status f ≠ present) row.
Proof.
  induction row as [|f row IH]; [constructor|].
  rewrite credited_cons. intros H.
  constructor; [|apply IH]; repeat case_decide; try lia; naive_solver.
Qed.

Lemma assignRest_not_empty m pairs :
  Forall (λ f, status f ≠ empty) (assignRest m pairs).
Proof.
  revert m. induction pairs as [|[a b] pairs IH]; intros m; simpl; [constructor|].
  repeat case_match; constructor; simpl; try done; apply IH.
Qed.

(** X2. For words of equal length: a guess letter that does not occur in the
    secret is marked [absent] at every position; a letter that the guess
    holds no more often than the secret is marked [correct] or [present] at
    every position. *)
Theorem getGuessFeedback_letter_verdict (guess secret : jsstring)
    (i : nat) (f : LetterFeedback) :
  length guess = length secret →
  arr_get (getGuessFeedback guess secret) i = Some f →
  (letter f ∉ toLowerCase secret → status f = absent) ∧
  ((occurrences (letter f) (toLowerCase guess)
    ≤ occurrences (letter f) (toLowerCase secret))%nat →
   status f = correct ∨ status f = present).
Proof.
  intros Hlen. rewrite getGuessFeedback_dense, arr_get_dense by done.
  intros Hf.
  assert (Hl : length (toLowerCase guess) = length (toLowerCase secret))
    by (by rewrite !length_toLowerCase).
  pose proof (twoPass_credited_min _ _ (letter f) Hl) as Hmin.
  pose proof (twoPass_letters _ _ Hl) as Hletters.
  split.
  - intros Hnot%occurrences_zero. rewrite Hnot, Nat.min_0_r in Hmin.
    pose proof (proj1 (Forall_lookup _ _) (credited_none _ _ Hmin) i f Hf eq_refl)
      as [Hc Hp].
    pose proof (proj1 (Forall_lookup _ _)
                  (assignRest_not_empty _ _) i f Hf) as He.
    simpl in He. revert Hc Hp He. destruct (status f); congruence.
  - intros Hle. rewrite Nat.min_l in Hmin by done.
    rewrite <- Hletters in Hmin at 2.
    exact (proj1 (Forall_lookup _ _) (credited_all _ _ Hmin) i f Hf eq_refl).
Qed.

Lemma getGuessFeedback_letter_verdict_witness :
  (status (LF "e" absent) = absent) ∧
  (status (LF "l" correct) = correct ∨ status (LF "l" correct) = present).
Proof.
  split.
  - apply (getGuessFeedback_letter_verdict (str "eagle") (str "world") 0
             (LF "e" absent) eq_refl eq_refl).
    vm_compute. intros H. by repeat (apply elem_of_cons in H as [H|H]; [done|]);
      apply elem_of_nil in H.
  - apply (getGuessFeedback_letter_verdict (str "eagle") (str "world") 3
             (LF "l" correct) eq_refl eq_refl).
    vm_compute. lia.
Defined.

(** ** The loops against the algorithm of the specification *)

Lemma exactPass_counts (m : gmap ascii Z) (M : LetterCounts) pairs :
  (∀ c, cnt m c = M c) →
  Forall (λ p, p.1 = p.2 → is_Some (m !! p.1)) pairs →
  ∀ c, cnt (resolveExact m pairs) c = exactPass M pairs c.
Proof.
  revert m M. induction pairs as [|[a b] pairs IH]; intros m M Hm Hkeys; [done|].
  inversion_clear Hkeys as [|? ? Hhead Htail]. simpl in Hhead.
  unfold resolveExact, exactPass. simpl.
  fold (resolveExact (if decide (a = b) then decrement a m else m) pairs).
  fold (exactPass (if decide (a = b) then takeOne a M else M) pairs).
  destruct (decide (a = b)) as [->|Hab]; [|by apply IH].
  apply IH.
  - intros c. unfold takeOne. destruct (decide (c = b)) as [->|Hc].
    + rewrite cnt_decrement_present by auto. by rewrite Hm.
    + by rewrite cnt_decrement_ne.
  - eapply Forall_impl; [exact Htail|]. intros p Hp Heq.
    apply decrement_is_Some. auto.
Qed.

Lemma restPass_counts (m : gmap ascii Z) (M : LetterCounts) pairs :
  (∀ c, cnt m c = M c) → assignRest m pairs = restPass M pairs.
Proof.
  revert m M. induction pairs as [|[a b] pairs IH]; intros m M Hm; simpl; [done|].
  destruct (decide (a = b)) as [->|Hab]; [by rewrite (IH m M)|].
  fold (cnt m a). rewrite Hm.
  destruct (Z.ltb_spec 0 (M a)) as [Hpos|Hle].
  - f_equal. apply IH. intros c. unfold takeOne.
    destruct (decide (c = a)) as [->|Hc].
    + rewrite cnt_decrement_pos by (rewrite Hm; lia). by rewrite Hm.
    + by rewrite cnt_decrement_ne.
  - f_equal. by apply IH.
Qed.

(** The two passes on the count map of the code are the two passes of the
    specification on the multiset of the secret's letters. *)
Lemma twoPass_evaluate_spec g s : twoPass g s = evaluate_spec g s.
Proof.
  unfold twoPass, evaluate_spec. apply restPass_counts.
  apply exactPass_counts.
  - intros c. apply cnt_countChars.
  - apply Forall_forall. intros [a b] Hp Heq. simpl in *. subst b.
    apply elem_of_zip_r in Hp. apply countChars_is_Some.
    destruct (occurrences a s) eqn:Hocc; [|lia].
    by apply occurrences_zero in Hocc.
Qed.

(** C1. For a guess and a secret of equal length [getGuessFeedback] returns
    the row of the two-pass algorithm of the specification, run on the
    lower-cased words: from the multiset of the secret's letters, pass 1
    marks the exact matches [correct] and takes their letters out, pass 2
    goes left to right and marks an unresolved position [present] while the
    remaining count of its letter is positive, taking one out, else [absent].
    The result is an array without holes, one cell per guess position and in
    guess order, each cell carrying the lower-cased guess letter of its
    position; and for every letter the positions credited to it ([correct]
    or [present]) are no more than its occurrences in the lower-cased
    secret. *)
Theorem getGuessFeedback_contract (guess secret : jsstring) :
  length guess = length secret →
  getGuessFeedback guess secret
    = Some <$> evaluate_spec (toLowerCase guess) (toLowerCase secret) ∧
  length (getGuessFeedback guess secret) = length guess ∧
  (∀ i c, toLowerCase guess !! i = Some c →
     ∃ st, arr_get (getGuessFeedback guess secret) i = Some (LF c st)) ∧
  (∀ c, (credited c (cells (getGuessFeedback guess secret))
         ≤ occurrences c (toLowerCase secret))%nat).
Proof.
  intros Hlen.
  assert (Hl : length (toLowerCase guess) = length (toLowerCase secret))
    by (by rewrite !length_toLowerCase).
  rewrite getGuessFeedback_dense by done. split_and!.
  - by rewrite twoPass_evaluate_spec.
  - by rewrite length_fmap, length_twoPass, length_toLowerCase.
  - intros i c Hi. rewrite arr_get_dense.
    pose proof (twoPass_letters _ _ Hl) as Hletters.
    rewrite <- Hletters, list_lookup_fmap in Hi.
    destruct (twoPass (toLowerCase guess) (toLowerCase secret) !! i)
      as [[c' st]|]; simplify_eq/=. by exists st.
  - intros c. rewrite cells_dense. by apply twoPass_credited.
Qed.

Lemma getGuessFeedback_contract_witness :
  getGuessFeedback (str "Llama") (str "hello")
  = [Some (LF "l" present); Some (LF "l" present); Some (LF "a" absent);
     Some (LF "m" absent); Some (LF "a" absent)] ∧
  length (getGuessFeedback (str "Llama") (str "hello")) = length (str "Llama").
Proof.
  pose proof (getGuessFeedback_contract (str "Llama") (str "hello") eq_refl)
    as (Hrow & Hlength & _).
  split; [|exact Hlength].
  rewrite Hrow. vm_compute. reflexivity.
Defined.

(** ** The evaluator on words of any lengths *)

Lemma all_written_dense {A} (a : JsArray A) :
  (∀ j, (j < length a)%nat → is_Some (arr_get a j)) → a = Some <$> cells a.
Proof.
  induction a as [|o a IH]; intros H; [done|].
  destruct (H 0%nat) as [x Hx]; [simpl; lia|].
  unfold arr_get in Hx. simpl in Hx. subst o.
  unfold cells. simpl. f_equal. apply IH.
  intros j Hj. apply (H (S j)). simpl. lia.
Qed.

Section any_length.
Variables g s : list ascii.

Let st0 := MkEval [] [] (countChars s).
Let st1 := foldl (firstPass g s) st0 (seq 0 (length g)).

Lemma exactAt_wellFormed j f : exactAt g s j = Some f → wellFormed g s j f.
Proof.
  unfold exactAt, wellFormed. destruct (g !! j) as [c|]; [|done].
  case_decide; [|done]. intros [= <-]. simpl. naive_solver.
Qed.

Lemma exactAt_ge j : (length g ≤ j)%nat → exactAt g s j = None.
Proof. intros H. unfold exactAt. by rewrite lookup_ge_None_2. Qed.

Lemma firstPass_prefix_any k :
  (k ≤ length g)%nat →
  let st := foldl (firstPass g s) st0 (seq 0 k) in
  (∀ i, i ∈ exactMatchedIndices st ↔ (i < k)%nat ∧ is_Some (exactAt g s i)) ∧
  (∀ j, arr_get (feedback st) j = if decide (j < k)%nat then exactAt g s j else None) ∧
  (length (feedback st) ≤ k)%nat.
Proof.
  induction k as [|k IH]; intros Hk; cbv zeta.
  - simpl. split_and!; [|done|done].
    intros i. split; [by intros ?%elem_of_nil | lia].
  - destruct IH as (Hm & Hf & Hl); [lia|].
    rewrite seq_S, foldl_app. simpl.
    set (st := foldl (firstPass g s) st0 (seq 0 k)) in *.
    destruct (lookup_lt_is_Some_2 g k) as [c Hg]; [lia|].
    assert (Hcell : exactAt g s k
                    = if decide (s !! k = Some c) then Some (LF c correct) else None).
    { unfold exactAt. by rewrite Hg. }
    unfold firstPass. rewrite Hg.
    destruct (decide (s !! k = Some c)) as [Hs|Hs]; simpl; split_and!.
    + intros i. rewrite elem_of_app, Hm, list_elem_of_singleton. split.
      * intros [[? ?]| ->]; [split; [lia|done]|]. split; [lia|]. by rewrite Hcell.
      * intros [Hi Hsome]. destruct (decide (i = k)); [by right|left].
        split; [lia|done].
    + intros j. rewrite arr_get_set, Hf.
      repeat case_decide; subst; try done; try lia.
    + rewrite length_arr_set. lia.
    + intros i. rewrite Hm. split.
      * intros [? ?]. split; [lia|done].
      * intros [Hi Hsome]. split; [|done].
        destruct (decide (i = k)) as [->|]; [|lia].
        rewrite Hcell in Hsome. by destruct Hsome.
    + intros j. rewrite Hf. destruct (decide (j = k)) as [->|].
      * rewrite Hcell, decide_False, decide_True by lia. done.
      * repeat case_decide; try done; lia.
    + lia.
Qed.

Lemma secondPass_prefix_any k :
  (k ≤ length g)%nat →
  let st := foldl (secondPass g) st1 (seq 0 k) in
  exactMatchedIndices st = exactMatchedIndices st1 ∧
  (∀ j, if decide (j < k)%nat
        then ∃ f, arr_get (feedback st) j = Some f ∧ wellFormed g s j f
        else arr_get (feedback st) j = exactAt g s j) ∧
  (length (feedback st) ≤ length g)%nat.
Proof.
  destruct (firstPass_prefix_any (length g)) as (Hm1 & Hf1 & Hl1); [lia|].
  fold st1 in Hm1, Hf1, Hl1.
  induction k as [|k IH]; intros Hk; cbv zeta.
  - split_and!; [done| |done]. intros j. rewrite decide_False by lia.
    change (foldl (secondPass g) st1 (seq 0 0)) with st1.
    rewrite Hf1. case_decide; [done|]. by rewrite exactAt_ge by lia.
  - destruct IH as (Hm & Hf & Hl); [lia|].
    rewrite seq_S, foldl_app. simpl.
    set (st := foldl (secondPass g) st1 (seq 0 k)) in *.
    destruct (lookup_lt_is_Some_2 g k) as [c Hg]; [lia|].
    assert (Hcell : exactAt g s k
                    = if decide (s !! k = Some c) then Some (LF c correct) else None).
    { unfold exactAt. by rewrite Hg. }
    pose proof (Hf k) as Hfk. rewrite decide_False in Hfk by lia.
    assert (Hkeep : ∀ F' : JsArray LetterFeedback,
              (∀ j, j ≠ k → arr_get F' j = arr_get (feedback st) j) →
              (∃ f, arr_get F' k = Some f ∧ wellFormed g s k f) →
              ∀ j, if decide (j < S k)%nat
                   then ∃ f, arr_get F' j = Some f ∧ wellFormed g s j f
                   else arr_get F' j = exactAt g s j).
    { intros F' Hsame Hnew j. destruct (decide (j = k)) as [->|Hne].
      - by rewrite decide_True by lia.
      - specialize (Hf j). rewrite Hsame by done.
        repeat case_decide; try done; lia. }
    unfold secondPass. rewrite Hm, Hg.
    destruct (decide (s !! k = Some c)) as [Hs|Hs].
    + rewrite bool_decide_eq_true_2 by (apply Hm1; split; [lia|by rewrite Hcell]).
      split_and!; [done| |done]. apply Hkeep; [done|].
      rewrite Hfk, Hcell. eexists. split; [done|].
      apply exactAt_wellFormed. by rewrite Hcell.
    + rewrite bool_decide_eq_false_2
        by (rewrite Hm1, Hcell; by intros [_ [? ?]]).
      destruct (hasRemaining _ c); simpl; split_and!; try done.
      * apply Hkeep.
        -- intros j Hj. rewrite arr_get_set. by rewrite decide_False.
        -- rewrite arr_get_set, decide_True by done. eexists. split; [done|].
           unfold wellFormed. simpl. naive_solver.
      * rewrite length_arr_set. lia.
      * apply Hkeep.
        -- intros j Hj. rewrite arr_get_set. by rewrite decide_False.
        -- rewrite arr_get_set, decide_True by done. eexists. split; [done|].
           unfold wellFormed. simpl. naive_solver.
      * rewrite length_arr_set. lia.
Qed.

(** Whatever the lengths, the loops leave an array without holes, one cell
    per guess character, and the third loop writes nothing. *)
Lemma feedbackLoops_any :
  let st2 := foldl (secondPass g) st1 (seq 0 (length g)) in
  foldl (fillPass g) st2 (seq 0 (length g)) = st2 ∧
  feedback (feedbackLoops g s) = Some <$> cells (feedback (feedbackLoops g s)) ∧
  length (feedback (feedbackLoops g s)) = length g ∧
  ∀ j f, arr_get (feedback (feedbackLoops g s)) j = Some f → wellFormed g s j f.
Proof.
  destruct (secondPass_prefix_any (length g)) as (_ & Hf & Hl); [lia|].
  cbv zeta. unfold feedbackLoops. fold st0. fold st1.
  set (st2 := foldl (secondPass g) st1 (seq 0 (length g))) in *.
  assert (Hfill : foldl (fillPass g) st2 (seq 0 (length g)) = st2).
  { apply foldl_fixed. intros i Hi%elem_of_seq. unfold fillPass.
    specialize (Hf i). rewrite decide_True in Hf by lia.
    by destruct Hf as (f & -> & _). }
  rewrite Hfill.
  assert (Hlen : length (feedback st2) = length g).
  { destruct (decide (length g = 0%nat)) as [Hz|Hnz]; [lia|].
    specialize (Hf (length g - 1)%nat). rewrite decide_True in Hf by lia.
    destruct Hf as (f & Hget & _). apply arr_get_Some_lt in Hget. lia. }
  split_and!; [done| |done|].
  - apply all_written_dense. intros j Hj. specialize (Hf j).
    rewrite decide_True in Hf by lia. destruct Hf as (f & -> & _). eauto.
  - intros j f Hget. pose proof (arr_get_Some_lt _ _ _ Hget) as Hj.
    specialize (Hf j). rewrite decide_True in Hf by lia.
    destruct Hf as (f' & Hget' & Hwf). by simplify_eq.
Qed.
End any_length.

Lemma cells_arr_get (guess secret : jsstring) (i : nat) :
  cells (getGuessFeedback guess secret) !! i
  = arr_get (getGuessFeedback guess secret) i.
Proof.
  unfold getGuessFeedback.
  destruct (feedbackLoops_any (toLowerCase guess) (toLowerCase secret))
    as (_ & Hdense & _).
  rewrite Hdense at 2. by rewrite arr_get_dense.
Qed.

Lemma getGuessFeedback_letters (guess secret : jsstring) :
  letter <$> cells (getGuessFeedback guess secret) = toLowerCase guess.
Proof.
  apply list_eq. intros j. rewrite list_lookup_fmap, cells_arr_get.
  unfold getGuessFeedback.
  destruct (feedbackLoops_any (toLowerCase guess) (toLowerCase secret))
    as (_ & Hdense & Hlen & Hwf).
  set (F := feedback (feedbackLoops (toLowerCase guess) (toLowerCase secret))) in *.
  destruct (arr_get F j) as [f|] eqn:Hget; simpl.
  - by destruct (Hwf j f Hget) as (-> & _).
  - symmetry. apply lookup_ge_None_2. rewrite <- Hlen.
    destruct (decide (length F ≤ j)%nat) as [|Hlt]; [done|].
    rewrite Hdense in Hget. rewrite arr_get_dense in Hget.
    apply lookup_ge_None_1 in Hget.
    rewrite Hdense, length_fmap. lia.
Qed.

(** X3. Whatever the lengths of guess and secret, [getGuessFeedback] returns
    an array without holes whose cells carry, in order, the lower-cased
    characters of the guess; no cell has status [empty], and a cell is
    [correct] exactly when the lower-cased secret holds the same character
    at that index (so never past the end of a shorter secret). *)
Theorem getGuessFeedback_any_length (guess secret : jsstring) :
  getGuessFeedback guess secret = Some <$> cells (getGuessFeedback guess secret) ∧
  letter <$> cells (getGuessFeedback guess secret) = toLowerCase guess ∧
  ∀ i f, cells (getGuessFeedback guess secret) !! i = Some f →
         status f ≠ empty ∧
         (status f = correct ↔ toLowerCase secret !! i = Some (letter f)).
Proof.
  split_and!.
  - unfold getGuessFeedback.
    by destruct (feedbackLoops_any (toLowerCase guess) (toLowerCase secret))
      as (_ & Hdense & _).
  - apply getGuessFeedback_letters.
  - intros i f Hi. rewrite cells_arr_get in Hi. unfold getGuessFeedback in Hi.
    destruct (feedbackLoops_any (toLowerCase guess) (toLowerCase secret))
      as (_ & _ & _ & Hwf).
    by destruct (Hwf i f Hi) as (_ & ? & ?).
Qed.

(** ** The hint summary against the feedback *)

Lemma count_by_index {A} (P : A → Prop) `{!∀ x, Decision (P x)}
    (Q : nat → Prop) `{!∀ i, Decision (Q i)} (row : list A) (k acc : nat) :
  (∀ i f, row !! i = Some f → (P f ↔ Q (k + i)%nat)) →
  foldl (λ n i, if decide (Q i) then S n else n) acc (seq k (length row))
  = (acc + length (filter P row))%nat.
Proof.
  revert k acc. induction row as [|f row IH]; intros k acc Hrow; simpl; [lia|].
  rewrite IH.
  - pose proof (Hrow 0%nat f eq_refl) as Hhead. rewrite Nat.add_0_r in Hhead.
    rewrite filter_cons. repeat case_decide; simpl; try lia; naive_solver.
  - intros i f' Hi. rewrite (Hrow (S i) f' Hi). by rewrite Nat.add_succ_r.
Qed.


Lemma lettersInWord_size (guess secret : jsstring) :
  lettersInWord (getHintSummary guess secret)
  = size (list_to_set (toLowerCase guess) ∩ list_to_set (toLowerCase secret)
          : gset ascii).
Proof.
  unfold getHintSummary. simpl.
  destruct (countLetter_fold (list_to_set (toLowerCase secret))
              (toLowerCase guess) 0 ∅) as [H2 H1]; [by rewrite size_empty|].
  rewrite H1, H2. f_equal. set_solver.
Qed.

(** X4. Whatever the lengths, the number of cells [getGuessFeedback] marks
    [correct] is the [correctPosition] of [getHintSummary]. *)
Theorem correct_cells_correctPosition (guess secret : jsstring) :
  length (filter (λ f, status f = correct) (cells (getGuessFeedback guess secret)))
  = correctPosition (getHintSummary guess secret).
Proof.
  destruct (feedbackLoops_any (toLowerCase guess) (toLowerCase secret))
    as (_ & Hdense & Hlen & Hwf).
  unfold getGuessFeedback, getHintSummary. simpl.
  set (F := feedback (feedbackLoops (toLowerCase guess) (toLowerCase secret))) in *.
  assert (Hrow : length (cells F) = length (toLowerCase guess)).
  { rewrite <- Hlen. rewrite Hdense at 2. by rewrite length_fmap. }
  rewrite <- Hrow.
  rewrite (count_by_index (λ f, status f = correct)
             (λ i, toLowerCase guess !! i = toLowerCase secret !! i)); [done|].
  intros i f Hi. simpl.
  assert (Hget : arr_get F i = Some f).
  { rewrite Hdense. by rewrite arr_get_dense. }
  destruct (Hwf i f Hget) as (Hg & _ & Hc). rewrite Hc, Hg. naive_solver.
Qed.


Lemma twoPass_absent_outside g s f :
  length g = length s → f ∈ twoPass g s → letter f ∉ s → status f = absent.
Proof.
  intros Hlen [i Hf]%list_elem_of_lookup Hnot%occurrences_zero.
  pose proof (twoPass_credited_min _ _ (letter f) Hlen) as Hmin.
  rewrite Hnot, Nat.min_0_r in Hmin.
  pose proof (proj1 (Forall_lookup _ _) (credited_none _ _ Hmin) i f Hf eq_refl)
    as [Hc Hp].
  pose proof (proj1 (Forall_lookup _ _) (assignRest_not_empty _ _) i f Hf) as He.
  simpl in He. revert Hc Hp He. destruct (status f); congruence.
Qed.

Lemma credited_absent c row :
  Forall (λ f, status f = absent) row → credited c row = 0%nat.
Proof.
  induction 1 as [|f row Hf _ IH]; [done|].
  rewrite credited_cons, IH, Hf. case_decide; naive_solver.
Qed.

(** X6. For words of equal length, the hint reports no letter in the word
    exactly when every cell of the feedback is [absent]. *)
Theorem lettersInWord_zero_iff_all_absent (guess secret : jsstring) :
  length guess = length secret →
  lettersInWord (getHintSummary guess secret) = 0%nat ↔
  Forall (λ f, status f = absent) (cells (getGuessFeedback guess secret)).
Proof.
  intros Hlen.
  assert (Hl : length (toLowerCase guess) = length (toLowerCase secret))
    by (by rewrite !length_toLowerCase).
  rewrite lettersInWord_size, getGuessFeedback_dense, cells_dense by done.
  rewrite size_empty_iff.
  pose proof (twoPass_letters _ _ Hl) as Hletters.
  split.
  - intros Hdisj. apply Forall_forall. intros f Hf.
    apply (twoPass_absent_outside _ _ f Hl Hf).
    assert (letter f ∈ toLowerCase guess).
    { rewrite <- Hletters. by apply list_elem_of_fmap_2. }
    set_solver.
  - intros Hall. apply set_equiv. intros c. split; [|set_solver].
    rewrite elem_of_intersection, !elem_of_list_to_set. intros [Hg Hs].
    pose proof (twoPass_credited_min _ _ c Hl) as Hmin.
    assert (credited c (twoPass (toLowerCase guess) (toLowerCase secret)) = 0%nat)
      as Hzero.
    { by apply credited_absent. }
    apply occurrences_zero in Hg; [done|].
    destruct (occurrences c (toLowerCase guess)) eqn:Hog; [done|].
    destruct (occurrences c (toLowerCase secret)) eqn:Hos;
      [by apply occurrences_zero in Hos|]. lia.
Qed.

Lemma lettersInWord_zero_iff_all_absent_witness :
  Forall (λ f, status f = absent)
         (cells (getGuessFeedback (str "stick") (str "world"))).
Proof.
  apply (lettersInWord_zero_iff_all_absent (str "stick") (str "world") eq_refl).
  vm_compute. reflexivity.
Defined.

(** ** Letter case and white space *)

Lemma lower_upper_char c : lower_char (upper_char c) = lower_char c.
Proof. by destruct c as [[] [] [] [] [] [] [] []]. Qed.

Lemma toLowerCase_toUpperCase w : toLowerCase (toUpperCase w) = toLowerCase w.
Proof.
  unfold toLowerCase, toUpperCase. rewrite <- list_fmap_compose.
  apply list_fmap_ext. intros _ c _. apply lower_upper_char.
Qed.

(** X7. On words of ASCII characters the evaluator reads its arguments up
    to letter case: feedback, hint summary and exact match are the same for
    the upper-cased and for the lower-cased guess and secret as for the words
    as given. *)
Theorem evaluator_case_insensitive (guess secret : jsstring) :
  isAscii guess → isAscii secret →
  getGuessFeedback (toUpperCase guess) (toLowerCase secret)
    = getGuessFeedback guess secret ∧
  getGuessFeedback (toLowerCase guess) (toUpperCase secret)
    = getGuessFeedback guess secret ∧
  getHintSummary (toUpperCase guess) (toLowerCase secret)
    = getHintSummary guess secret ∧
  getHintSummary (toLowerCase guess) (toUpperCase secret)
    = getHintSummary guess secret ∧
  isGuessCorrect (toUpperCase guess) (toLowerCase secret)
    = isGuessCorrect guess secret ∧
  isGuessCorrect (toLowerCase guess) (toUpperCase secret)
    = isGuessCorrect guess secret.
Proof.
  intros _ _. unfold getGuessFeedback, getHintSummary, isGuessCorrect.
  by rewrite !toLowerCase_toUpperCase, !toLowerCase_idemp.
Qed.

Lemma evaluator_case_insensitive_witness :
  getGuessFeedback (str "LLAMA") (str "hello")
    = getGuessFeedback (str "LlaMa") (str "HeLLo") ∧
  isGuessCorrect (str "HELLO") (str "hello")
    = isGuessCorrect (str "HeLLo") (str "hEllO").
Proof.
  assert (Hguess : isAscii (str "LlaMa"))
    by (apply (bool_decide_unpack _); by vm_compute).
  assert (Hsecret : isAscii (str "HeLLo"))
    by (apply (bool_decide_unpack _); by vm_compute).
  assert (Hother : isAscii (str "hEllO"))
    by (apply (bool_decide_unpack _); by vm_compute).
  split.
  - exact (proj1 (evaluator_case_insensitive _ _ Hguess Hsecret)).
  - exact (proj1 (proj2 (proj2 (proj2 (proj2
             (evaluator_case_insensitive _ _ Hsecret Hother)))))).
Defined.

Lemma trimStart_spaces ws w :
  forallb Ascii.is_space ws = true → trimStart (ws ++ w) = trimStart w.
Proof.
  induction ws as [|c ws IH]; simpl; [done|].
  intros [Hc Hws]%andb_prop. rewrite Hc. by apply IH.
Qed.

Lemma trimStart_stops w :
  trimStart w = [] ∨ ∃ c w', trimStart w = c :: w' ∧ Ascii.is_space c = false.
Proof.
  induction w as [|c w IH]; simpl; [by left|].
  destruct (Ascii.is_space c) eqn:Hc; [done|]. right. eauto.
Qed.

Lemma trimStart_app_keep w ws :
  trimStart w ≠ [] → trimStart (w ++ ws) = trimStart w ++ ws.
Proof.
  induction w as [|c w IH]; simpl; [done|].
  destruct (Ascii.is_space c); [done|]. done.
Qed.

Lemma trimStart_all_spaces ws :
  forallb Ascii.is_space ws = true → trimStart ws = [].
Proof.
  induction ws as [|c ws IH]; simpl; [done|].
  intros [Hc Hws]%andb_prop. rewrite Hc. by apply IH.
Qed.

Lemma trimStart_app_spaces w ws :
  forallb Ascii.is_space ws = true → trimStart w = [] → trimStart (w ++ ws) = [].
Proof.
  intros Hws. induction w as [|c w IH]; simpl.
  - intros _. by apply trimStart_all_spaces.
  - destruct (Ascii.is_space c); [done|]. done.
Qed.

(** White space around a word is trimmed away. *)
Lemma trim_spaces ws1 w ws2 :
  forallb Ascii.is_space ws1 = true → forallb Ascii.is_space ws2 = true →
  trim (ws1 ++ w ++ ws2) = trim w.
Proof.
  intros H1 H2. unfold trim. rewrite trimStart_spaces by done.
  f_equal. destruct (decide (trimStart w = [])) as [Hnil|Hne].
  - rewrite trimStart_app_spaces, Hnil by done. done.
  - rewrite trimStart_app_keep by done. rewrite reverse_app.
    apply trimStart_spaces. by rewrite forallb_reverse.
Qed.

Lemma is_space_lower c : Ascii.is_space (lower_char c) = Ascii.is_space c.
Proof. by destruct c as [[] [] [] [] [] [] [] []]. Qed.

Lemma forallb_fmap {A B} (f : A → B) (p : B → bool) (q : A → bool) l :
  (∀ x, p (f x) = q x) → forallb p (f <$> l) = forallb q l.
Proof.
  intros Hpq. induction l as [|x l IH]; simpl; [done|].
  rewrite Hpq. f_equal. exact IH.
Qed.

(** X8. On ASCII input [isValidWord] does not see letter case nor white
    space around the word: a word padded with white space (tab, line feed,
    vertical tab, form feed, carriage return, space) on either side and put
    in upper case is valid exactly when the word itself is. Independently of
    that, no word is valid for a length other than 5 or 6. *)
Theorem isValidWord_padding_case (ws1 word ws2 : jsstring) (wordLength : option nat) :
  isAscii ws1 → isAscii word → isAscii ws2 →
  forallb Ascii.is_space ws1 = true → forallb Ascii.is_space ws2 = true →
  isValidWord (ws1 ++ toUpperCase word ++ ws2) wordLength
    = isValidWord word wordLength ∧
  (isValidWord word wordLength = true →
   ∀ n, wordLength = Some n → n = 5%nat ∨ n = 6%nat).
Proof.
  intros _ _ _ H1 H2. split.
  - unfold isValidWord, toLowerCase. rewrite !fmap_app.
    fold (toLowerCase (toUpperCase word)). rewrite toLowerCase_toUpperCase.
    rewrite trim_spaces; [done| |].
    all: by rewrite (forallb_fmap _ _ Ascii.is_space) by apply is_space_lower.
  - unfold isValidWord. intros Hv n ->.
    destruct (Nat.eqb_spec (length (trim (toLowerCase word))) 5) as [H5|H5],
             (Nat.eqb_spec (length (trim (toLowerCase word))) 6) as [H6|H6],
             (Nat.eqb_spec (length (trim (toLowerCase word))) n) as [Hn|Hn];
      simpl in Hv; try done; lia.
Qed.

Lemma isValidWord_padding_case_witness :
  isValidWord (str "  " ++ toUpperCase (str "hello") ++ str " ") (Some 5%nat)
  = isValidWord (str "hello") (Some 5%nat).
Proof.
  apply (isValidWord_padding_case (str "  ") (str "hello") (str " ")
           (Some 5%nat)); try reflexivity.
  all: apply (bool_decide_unpack _); by vm_compute.
Defined.

(** X9. [submitGuess] rejects exactly the inputs whose lower-cased form has
    another length than the session's word length or holds a character
    outside a-z (white space included, although [isValidWord] alone would
    trim it); the session status plays no part. A rejected input leaves the
    whole context as it was. *)
Theorem submitGuess_rejection (today : Today) (guess : jsstring) (ctx : Context) :
  ((submitGuess today guess ctx).1 = false ↔
   length guess ≠ wl (wordLength (gameState ctx)) ∨
   forallb is_az (toLowerCase guess) = false) ∧
  ((submitGuess today guess ctx).1 = false →
   (submitGuess today guess ctx).2 = ctx).
Proof.
  split.
  - rewrite submitGuess_rejects_iff. by rewrite length_toLowerCase.
  - apply submitGuess_rejected_unchanged.
Qed.

Lemma submitGuess_rejection_witness :
  (submitGuess (MkToday 2026 10 2) (str " ello") worldGame).2 = worldGame.
Proof.
  apply (submitGuess_rejection (MkToday 2026 10 2) (str " ello") worldGame).
  reflexivity.
Defined.

(** ** The session: what an accepted guess does *)

(** The context an accepted guess leaves. *)
Lemma submitGuess_accepted (today : Today) (guess : jsstring) (ctx : Context) :
  (submitGuess today guess ctx).1 = true →
  let gs := gameState ctx in
  let word := toLowerCase guess in
  let row := cells (getGuessFeedback word (secretWord gs)) in
  let n := S (length (guesses gs)) in
  let won := isGuessCorrect guess (secretWord gs) in
  let lost := negb won && Nat.leb (maxAttempts gs) n in
  let ctx' := (submitGuess today guess ctx).2 in
  length guess = wl (wordLength gs) ∧
  forallb is_az word = true ∧
  gameState ctx' = MkGame (secretWord gs) (guesses gs ++ [MkGuess word row]) []
                          (statusAfter won lost) (wordLength gs) (gameMode gs)
                          (difficulty gs) (maxAttempts gs) ∧
  currentHint ctx' = Some (getHintSummary word (secretWord gs)) ∧
  lastGuessFeedback ctx' = Some row ∧
  keyboardStatus ctx' = updateKeyboardStatus row (keyboardStatus ctx) ∧
  calls ctx' = calls ctx ++ (if won || lost then terminalCalls gs won n else []) ∧
  stats ctx' = (if won || lost
                then (updateStats won (Z.of_nat n) (storage ctx)).1
                else stats ctx) ∧
  wordgame_stats (storage ctx')
    = (if won || lost then Some (stats ctx') else wordgame_stats (storage ctx)) ∧
  wordgame_daily (storage ctx')
    = (if (won || lost) && bool_decide (gameMode gs = daily)
       then Some (MkDaily (dateString today) true won (wordLength gs) n)
       else wordgame_daily (storage ctx)).
Proof.
  intros Hacc. cbv zeta.
  assert (Hok : length guess = wl (wordLength (gameState ctx)) ∧
                forallb is_az (toLowerCase guess) = true).
  { pose proof (submitGuess_rejects_iff today guess ctx) as Hrej.
    rewrite length_toLowerCase in Hrej.
    destruct (decide (length guess = wl (wordLength (gameState ctx)))) as [|Hne];
      [|rewrite (proj2 Hrej) in Hacc by (by left); done].
    destruct (forallb is_az (toLowerCase guess)) eqn:Haz; [done|].
    rewrite (proj2 Hrej) in Hacc by (by right). done. }
  destruct Hok as [Hlen Haz]. split; [done|]. split; [done|].
  revert Hacc. unfold submitGuess.
  destruct (negb _); [done|]. destruct (negb _); [done|]. intros _.
  rewrite isGuessCorrect_lower, length_app, Nat.add_1_r. simpl.
  unfold terminalCalls.
  destruct (isGuessCorrect guess _ || _) eqn:Hterm; simpl;
    repeat case_decide; simpl; rewrite <- ?app_assoc, ?app_nil_r; simpl;
    rewrite ?bool_decide_eq_true_2, ?bool_decide_eq_false_2 by done;
    split_and!; done.
Qed.

(** X10. After an accepted guess the status is won exactly when the guess
    is the secret up to case - also on the last attempt -, lost exactly when
    it is not and the attempts are used up, and playing otherwise. The store
    calls grow by those of one finished game when the status is won or lost
    and not at all otherwise, and the statistics shown change only then. *)
Theorem submitGuess_outcome (today : Today) (guess : jsstring) (ctx : Context) :
  (submitGuess today guess ctx).1 = true →
  let gs := gameState ctx in
  let ctx' := (submitGuess today guess ctx).2 in
  let n := S (length (guesses gs)) in
  (gameStatus (gameState ctx') = Won ↔ isGuessCorrect guess (secretWord gs) = true) ∧
  (gameStatus (gameState ctx') = Lost ↔
     isGuessCorrect guess (secretWord gs) = false ∧ (maxAttempts gs ≤ n)%nat) ∧
  calls ctx' = calls ctx ++
     match gameStatus (gameState ctx') with
     | Playing => []
     | Won => terminalCalls gs true n
     | Lost => terminalCalls gs false n
     end ∧
  stats ctx' =
     match gameStatus (gameState ctx') with
     | Playing => stats ctx
     | Won => (updateStats true (Z.of_nat n) (storage ctx)).1
     | Lost => (updateStats false (Z.of_nat n) (storage ctx)).1
     end.
Proof.
  intros Hacc. cbv zeta.
  destruct (submitGuess_accepted today guess ctx Hacc)
    as (_ & _ & Hgs & _ & _ & _ & Hcalls & Hstats & _).
  rewrite Hgs, Hcalls, Hstats. simpl. unfold statusAfter.
  destruct (isGuessCorrect guess (secretWord (gameState ctx))); simpl.
  - split_and!; try done. naive_solver.
  - destruct (Nat.leb_spec (maxAttempts (gameState ctx))
                (S (length (guesses (gameState ctx))))); simpl;
      split_and!; try done; naive_solver lia.
Qed.

Lemma submitGuess_outcome_witness :
  let ctx := play (MkToday 2026 10 2)
               [str "hello"; str "apple"; str "bread"; str "chair"; str "dance"]
               worldGame in
  gameStatus (gameState (submitGuess (MkToday 2026 10 2) (str "World") ctx).2)
  = Won.
Proof.
  apply (submitGuess_outcome (MkToday 2026 10 2) (str "World")); reflexivity.
Defined.

Lemma play_snoc today inputs guess ctx :
  play today (inputs ++ [guess]) ctx
  = (submitGuess today guess (play today inputs ctx)).2.
Proof. unfold play. by rewrite foldl_app. Qed.

Lemma acceptable_accepted today guess ctx :
  (submitGuess today guess ctx).1 = acceptable (wordLength (gameState ctx)) guess.
Proof.
  pose proof (submitGuess_rejects_iff today guess ctx) as Hrej.
  rewrite length_toLowerCase in Hrej. unfold acceptable.
  destruct ((submitGuess today guess ctx).1) eqn:Hacc.
  - destruct (Nat.eqb_spec (length guess) (wl (wordLength (gameState ctx))))
      as [Hlen|Hlen]; simpl.
    + destruct (forallb is_az (toLowerCase guess)) eqn:Haz; [done|].
      by apply (proj2 Hrej); right.
    + by apply (proj2 Hrej); left.
  - symmetry. apply andb_false_iff.
    destruct (proj1 Hrej eq_refl) as [Hlen|Haz]; [left|by right].
    by apply Nat.eqb_neq.
Qed.

(** X11. Submitting guesses never changes the secret, the word length, the
    mode or the number of attempts, and never touches a recorded guess: the
    history after any sequence of inputs is the history before followed by
    exactly one record for each input of the session's length whose
    lower-cased form consists of the letters a-z, in the order of the
    inputs, and nothing for the other inputs; a record holds the lower-cased
    input and the feedback of that word against the secret. *)
Theorem play_history (today : Today) (inputs : list jsstring) (ctx : Context) :
  let gs := gameState ctx in
  let gs' := gameState (play today inputs ctx) in
  secretWord gs' = secretWord gs ∧ wordLength gs' = wordLength gs ∧
  gameMode gs' = gameMode gs ∧ maxAttempts gs' = maxAttempts gs ∧
  guesses gs'
  = guesses gs ++
    (recordOf (secretWord gs) <$> List.filter (acceptable (wordLength gs)) inputs).
Proof.
  cbv zeta. induction inputs as [|guess inputs IH] using rev_ind.
  - split_and!; try done. simpl. by rewrite app_nil_r.
  - rewrite play_snoc, List.filter_app, fmap_app. simpl.
    destruct IH as (Hs & Hw & Hm & Ha & Hnew).
    set (mid := play today inputs ctx) in *.
    pose proof (acceptable_accepted today guess mid) as Hacc.
    rewrite Hw in Hacc.
    destruct (acceptable (wordLength (gameState ctx)) guess); simpl.
    + destruct (submitGuess_accepted today guess mid Hacc)
        as (_ & _ & Hgs & _). rewrite Hgs. simpl.
      split_and!; try done.
      unfold recordOf. by rewrite Hnew, Hs, <- app_assoc.
    + rewrite (submitGuess_rejected_unchanged today guess mid Hacc).
      rewrite app_nil_r. split_and!; done.
Qed.

Lemma play_history_witness :
  guesses (gameState (play (MkToday 2026 10 2)
                        [str "Hello"; str "abc"; str "wor1d"; str "WORLD"]
                        worldGame))
  = [MkGuess (str "hello")
       [LF "h" absent; LF "e" absent; LF "l" absent; LF "l" correct;
        LF "o" present];
     MkGuess (str "world")
       [LF "w" correct; LF "o" correct; LF "r" correct; LF "l" correct;
        LF "d" correct]].
Proof.
  rewrite (proj2 (proj2 (proj2 (proj2
             (play_history (MkToday 2026 10 2)
                [str "Hello"; str "abc"; str "wor1d"; str "WORLD"]
                worldGame))))).
  vm_compute. reflexivity.
Defined.

(** ** Starting a game *)





(** X13. A guess can only win against a secret that, lower-cased, consists
    of the letters a-z and has the session's word length: with a secret of
    another kind (a custom word is not checked for letters) no submission
    ever sets the status to won. *)
Theorem win_needs_letter_secret (today : Today) (guess : jsstring) (ctx : Context) :
  gameStatus (gameState ctx) ≠ Won →
  gameStatus (gameState (submitGuess today guess ctx).2) = Won →
  forallb is_az (toLowerCase (secretWord (gameState ctx))) = true ∧
  length (secretWord (gameState ctx)) = wl (wordLength (gameState ctx)) ∧
  toLowerCase guess = toLowerCase (secretWord (gameState ctx)).
Proof.
  intros Hnot Hwon.
  destruct ((submitGuess today guess ctx).1) eqn:Hacc.
  - destruct (submitGuess_accepted today guess ctx Hacc)
      as (Hlen & Haz & Hgs & _).
    rewrite Hgs in Hwon. simpl in Hwon. unfold statusAfter in Hwon.
    destruct (isGuessCorrect guess (secretWord (gameState ctx))) eqn:Hc;
      [|by destruct (_ && _)].
    unfold isGuessCorrect in Hc. apply bool_decide_eq_true in Hc.
    split_and!; [by rewrite <- Hc| |done].
    rewrite <- Hlen, <- (length_toLowerCase guess), Hc.
    by rewrite length_toLowerCase.
  - rewrite (submitGuess_rejected_unchanged today guess ctx Hacc) in Hwon. done.
Qed.

Lemma win_needs_letter_secret_witness :
  toLowerCase (str "WORLD") = toLowerCase (secretWord (gameState worldGame)).
Proof.
  apply (win_needs_letter_secret (MkToday 2026 10 2) (str "WORLD") worldGame);
    [discriminate|reflexivity].
Defined.

(** ** The buffer and the keyboard *)



Lemma is_az_upper d : is_az (upper_char d) = false.
Proof. by destruct d as [[] [] [] [] [] [] [] []]. Qed.

Lemma lowerKeys_no_upper (kb : gmap jsstring KeyStatus) (letter : jsstring) :
  lowerKeys kb → kb !! toUpperCase letter = None.
Proof.
  intros Hkb. destruct (kb !! toUpperCase letter) as [st|] eqn:Hst; [|done].
  destruct (Hkb _ _ Hst) as (c & Hc & Haz).
  destruct letter as [|d [|]]; simplify_eq/=.
  by rewrite is_az_upper in Haz.
Qed.

Lemma keyboardStep_lowerKeys (kb : gmap jsstring KeyStatus) (item : LetterFeedback) :
  is_az (letter item) = true → lowerKeys kb → lowerKeys (keyboardStep kb item).
Proof.
  intros Haz Hkb key st. unfold keyboardStep.
  repeat case_decide; try apply Hkb;
    (destruct (decide (key = [letter item])) as [->|Hne];
     [intros _; eauto | rewrite lookup_insert_ne by done; apply Hkb]).
Qed.

Lemma updateKeyboardStatus_lowerKeys (row : list LetterFeedback)
    (kb : gmap jsstring KeyStatus) :
  Forall (λ item, is_az (letter item) = true) row →
  lowerKeys kb → lowerKeys (updateKeyboardStatus row kb).
Proof.
  unfold updateKeyboardStatus. revert kb.
  induction row as [|item row IH]; intros kb Hrow Hkb; simpl; [done|].
  inversion_clear Hrow. apply IH; [done|]. by apply keyboardStep_lowerKeys.
Qed.

Lemma forallb_Forall {A} (p : A → bool) l :
  forallb p l = true ↔ Forall (λ x, p x = true) l.
Proof.
  induction l as [|x l IH]; simpl; [split; [constructor|done]|].
  rewrite andb_true_iff, Forall_cons, IH. done.
Qed.

Lemma submitGuess_lowerKeys today guess ctx :
  lowerKeys (keyboardStatus ctx) →
  lowerKeys (keyboardStatus (submitGuess today guess ctx).2).
Proof.
  intros Hkb. destruct ((submitGuess today guess ctx).1) eqn:Hacc.
  - destruct (submitGuess_accepted today guess ctx Hacc)
      as (_ & Haz & _ & _ & _ & -> & _).
    apply updateKeyboardStatus_lowerKeys; [|done].
    pose proof (getGuessFeedback_letters (toLowerCase guess)
                  (secretWord (gameState ctx))) as Hletters.
    rewrite toLowerCase_idemp in Hletters.
    apply (proj1 (Forall_fmap letter (λ c, is_az c = true) _)).
    rewrite Hletters. by apply forallb_Forall.
  - by rewrite (submitGuess_rejected_unchanged today guess ctx Hacc).
Qed.

Lemma play_lowerKeys today inputs ctx :
  lowerKeys (keyboardStatus ctx) →
  lowerKeys (keyboardStatus (play today inputs ctx)).
Proof.
  intros Hkb. induction inputs as [|guess inputs IH] using rev_ind; [done|].
  rewrite play_snoc. by apply submitGuess_lowerKeys.
Qed.

(** X15. In a session that starts with an empty keyboard, after any sequence
    of submitted guesses every recorded key is one lower-case letter, so
    nothing is recorded under [letter.toUpperCase()] for any input of
    [addLetter]: its absent check never stops a letter, and while the game
    is in progress and the buffer has room [addLetter] appends. *)
Theorem addLetter_never_blocked (today : Today) (inputs : list jsstring)
    (letter : jsstring) (ctx : Context) :
  keyboardStatus ctx = ∅ →
  let ctx' := play today inputs ctx in
  lowerKeys (keyboardStatus ctx') ∧
  keyboardStatus ctx' !! toUpperCase letter = None ∧
  (gameStatus (gameState ctx') = Playing →
   (length (currentGuess (gameState ctx')) < wl (wordLength (gameState ctx')))%nat →
   currentGuess (gameState (addLetter letter ctx'))
   = currentGuess (gameState ctx') ++ toLowerCase letter).
Proof.
  intros Hempty. cbv zeta.
  assert (Hkb : lowerKeys (keyboardStatus (play today inputs ctx))).
  { apply play_lowerKeys. rewrite Hempty. intros key st.
    by rewrite lookup_empty. }
  pose proof (lowerKeys_no_upper _ letter Hkb) as Hnone.
  split_and!; [done|done|].
  intros Hs Hroom. apply addLetter_cases; [done|done|]. by rewrite Hnone.
Qed.

Lemma addLetter_never_blocked_witness :
  keyboardStatus
    (play (MkToday 2026 10 2) [str "eagle"; str "stick"] worldGame)
  !! toUpperCase (str "e") = None.
Proof.
  apply (addLetter_never_blocked (MkToday 2026 10 2)
           [str "eagle"; str "stick"] (str "e") worldGame).
  reflexivity.
Defined.

Lemma keyboardStep_best (kb : gmap jsstring KeyStatus) (item : LetterFeedback)
    (key : jsstring) :
  rank (keyboardStep kb item !! key)
  = if decide ([letter item] = key)
    then Nat.max (srank (status item)) (rank (kb !! key))
    else rank (kb !! key).
Proof.
  unfold keyboardStep. destruct (decide ([letter item] = key)) as [<-|Hkey].
  - destruct (status item) eqn:Hst, (kb !! [letter item]) as [[]|] eqn:Hkb;
      repeat case_decide; rewrite ?lookup_insert_eq, ?Hkb; simpl; try done;
      naive_solver.
  - repeat case_decide; rewrite ?lookup_insert_ne by done; done.
Qed.

(** X16. After [updateKeyboardStatus] the status recorded for a key is the
    best of what was recorded before and of the statuses the feedback row
    holds for that key, in the order unrecorded < absent < present <
    correct; a key the row does not mention keeps its record. *)
Theorem updateKeyboardStatus_best (row : list LetterFeedback)
    (kb : gmap jsstring KeyStatus) (key : jsstring) :
  rank (updateKeyboardStatus row kb !! key)
    = Nat.max (rank (kb !! key)) (bestIn key row) ∧
  (Forall (λ item, [letter item] ≠ key) row →
   updateKeyboardStatus row kb !! key = kb !! key).
Proof.
  unfold updateKeyboardStatus. split.
  - revert kb. induction row as [|item row IH]; intros kb; simpl; [lia|].
    rewrite IH, keyboardStep_best. case_decide; lia.
  - revert kb. induction row as [|item row IH]; intros kb Hrow; simpl; [done|].
    inversion_clear Hrow as [|? ? Hitem Hrest]. rewrite IH by done.
    unfold keyboardStep. repeat case_decide; rewrite ?lookup_insert_ne by done; done.
Qed.

Lemma updateKeyboardStatus_best_witness :
  updateKeyboardStatus (cells (getGuessFeedback (str "eagle") (str "world")))
                       {[ str "z" := key_absent ]} !! str "z"
  = Some key_absent.
Proof.
  rewrite (proj2 (updateKeyboardStatus_best
                    (cells (getGuessFeedback (str "eagle") (str "world")))
                    {[ str "z" := key_absent ]} (str "z"))).
  - reflexivity.
  - vm_compute. repeat constructor; discriminate.
Defined.

(** ** The game screen: key events *)

Lemma withBuffer_same ctx : withBuffer ctx (currentGuess (gameState ctx)) = ctx.
Proof. by destruct ctx as [[] ? ? ? ? ? ?]. Qed.

Lemma addLetter_buffer letter ctx :
  addLetter letter ctx = ctx ∨
  (gameStatus (gameState ctx) = Playing ∧
   (length (currentGuess (gameState ctx)) < wl (wordLength (gameState ctx)))%nat ∧
   addLetter letter ctx
   = withBuffer ctx (currentGuess (gameState ctx) ++ toLowerCase letter)).
Proof.
  unfold addLetter. case_decide; [by left|].
  destruct (Nat.leb_spec (wl (wordLength (gameState ctx)))
              (length (currentGuess (gameState ctx)))); simpl; [by left|].
  case_bool_decide; simpl; [|by left]. right. done.
Qed.

Lemma removeLetter_buffer ctx :
  removeLetter ctx
  = withBuffer ctx (if Nat.eqb (length (currentGuess (gameState ctx))) 0
                       || negb (bool_decide (gameStatus (gameState ctx) = Playing))
                    then currentGuess (gameState ctx)
                    else take (length (currentGuess (gameState ctx)) - 1)
                              (currentGuess (gameState ctx))).
Proof.
  unfold removeLetter. destruct (_ || _); [|done]. by rewrite withBuffer_same.
Qed.

Lemma oneUpdate_withBuffer base ctx buffer :
  oneUpdate base ctx → oneUpdate base (withBuffer ctx buffer).
Proof. done. Qed.

Lemma submitGuess_oneUpdate base today guess ctx :
  oneUpdate base ctx → gameStatus (gameState ctx) = Playing →
  oneUpdate base (submitGuess today guess ctx).2.
Proof.
  intros Hinv Hs. destruct ((submitGuess today guess ctx).1) eqn:Hacc;
    [|by rewrite (submitGuess_rejected_unchanged today guess ctx Hacc)].
  destruct (submitGuess_accepted today guess ctx Hacc)
    as (_ & _ & Hgs & _ & _ & _ & Hcalls & _).
  unfold oneUpdate in *. rewrite Hs in Hinv. destruct Hinv as (_ & Hlt & Hbase).
  rewrite Hgs, Hcalls, Hbase. simpl. rewrite length_app. simpl.
  rewrite Nat.add_1_r. unfold statusAfter, terminalCalls. simpl.
  destruct (isGuessCorrect guess (secretWord (gameState ctx))); simpl.
  - split; [lia|done].
  - destruct (Nat.leb_spec (maxAttempts (gameState ctx))
                (S (length (guesses (gameState ctx))))); simpl.
    + split; [lia|done].
    + split; [lia|]. split; [lia|]. by rewrite app_nil_r.
Qed.

Lemma handleSubmit_oneUpdate base today ctx :
  oneUpdate base ctx → gameStatus (gameState ctx) = Playing →
  oneUpdate base (handleSubmit today ctx).2.
Proof.
  intros Hinv Hs. unfold handleSubmit. destruct (negb _); [done|].
  pose proof (submitGuess_oneUpdate base today
                (currentGuess (gameState ctx)) ctx Hinv Hs).
  by destruct (negb _).
Qed.

Lemma handleKeyDown_oneUpdate base today key ctx :
  oneUpdate base ctx → oneUpdate base (handleKeyDown today key ctx).2.
Proof.
  intros Hinv. unfold handleKeyDown. case_bool_decide as Hs; simpl; [|done].
  case_bool_decide; [by apply handleSubmit_oneUpdate|].
  destruct (_ || _); simpl.
  - rewrite removeLetter_buffer. by apply oneUpdate_withBuffer.
  - destruct (test_AZ_one _); simpl; [|done].
    destruct (addLetter_buffer (toUpperCase key) ctx) as [->|(_ & _ & ->)];
      [done|by apply oneUpdate_withBuffer].
Qed.

Lemma handleKeyPress_oneUpdate base today key ctx :
  oneUpdate base ctx → oneUpdate base (handleKeyPress today key ctx).2.
Proof.
  intros Hinv. unfold handleKeyPress. case_bool_decide as Hs; simpl; [|done].
  case_bool_decide; [by apply handleSubmit_oneUpdate|].
  case_bool_decide; simpl.
  - rewrite removeLetter_buffer. by apply oneUpdate_withBuffer.
  - destruct (addLetter_buffer key ctx) as [->|(_ & _ & ->)];
      [done|by apply oneUpdate_withBuffer].
Qed.

(** X17. Through the game screen a game updates the statistics once: from a
    game in progress with attempts left, after any sequence of key events
    or of presses on the on-screen keyboard, the history holds at most
    [maxAttempts] guesses; while the status is playing there are attempts
    left and no store call has been made; and once it is won or lost exactly
    the calls of one finished game have been made, with the final number of
    guesses. Key events that follow the end of the game change nothing. *)
Theorem screen_one_update (today : Today) (keys : list jsstring)
    (ctx : Context) :
  gameStatus (gameState ctx) = Playing →
  (length (guesses (gameState ctx)) < maxAttempts (gameState ctx))%nat →
  oneUpdate (calls ctx) (typeKeys today keys ctx) ∧
  oneUpdate (calls ctx) (pressKeys today keys ctx) ∧
  (∀ key ctx', gameStatus (gameState ctx') ≠ Playing →
     (handleKeyDown today key ctx').2 = ctx' ∧
     (handleKeyPress today key ctx').2 = ctx').
Proof.
  intros Hs Hlt.
  assert (Hinv : oneUpdate (calls ctx) ctx).
  { unfold oneUpdate. rewrite Hs. split; [lia|done]. }
  split_and!.
  - unfold typeKeys. induction keys as [|key keys IH] using rev_ind; [done|].
    rewrite foldl_app. simpl. by apply handleKeyDown_oneUpdate.
  - unfold pressKeys. induction keys as [|key keys IH] using rev_ind; [done|].
    rewrite foldl_app. simpl. by apply handleKeyPress_oneUpdate.
  - intros key ctx' Hend. unfold handleKeyDown, handleKeyPress.
    by rewrite (bool_decide_eq_false_2 _ Hend).
Qed.

Lemma screen_one_update_witness :
  oneUpdate []
    (typeKeys (MkToday 2026 10 2)
       (str <$> ["w"; "o"; "r"; "l"; "d"; "Enter"; "a"; "Enter"]) worldGame).
Proof.
  refine (proj1 (screen_one_update (MkToday 2026 10 2)
                   (str <$> ["w"; "o"; "r"; "l"; "d"; "Enter"; "a"; "Enter"])
                   worldGame eq_refl _)).
  simpl. lia.
Defined.

Lemma is_az_lower_id c : is_az c = true → lower_char c = c.
Proof. by destruct c as [[] [] [] [] [] [] [] []]. Qed.

Lemma toLowerCase_az w : forallb is_az w = true → toLowerCase w = w.
Proof.
  induction w as [|c w IH]; simpl; [done|].
  intros [Hc Hw]%andb_prop. unfold toLowerCase in *. simpl.
  by rewrite is_az_lower_id, IH.
Qed.

Lemma test_AZ_one_lower key :
  test_AZ_one key = true →
  length (toLowerCase key) = 1%nat ∧ forallb is_az (toLowerCase key) = true.
Proof.
  destruct key as [|c [|]]; simpl; try done.
  by destruct c as [[] [] [] [] [] [] [] []].
Qed.

Lemma forallb_take {A} (p : A → bool) n l :
  forallb p l = true → forallb p (take n l) = true.
Proof. rewrite !forallb_Forall. apply Forall_take. Qed.

Lemma bufferTyped_withBuffer ctx buffer :
  forallb is_az buffer = true →
  (length buffer ≤ wl (wordLength (gameState ctx)))%nat →
  bufferTyped (withBuffer ctx buffer).
Proof. by split. Qed.

Lemma handleSubmit_typed today ctx :
  bufferTyped ctx →
  bufferTyped (handleSubmit today ctx).2 ∧
  (handleSubmit today ctx).1 ≠ Some (str "Not in word list") ∧
  (length (currentGuess (gameState ctx)) = wl (wordLength (gameState ctx)) →
   (handleSubmit today ctx).1 = None ∧
   guesses (gameState (handleSubmit today ctx).2)
   = guesses (gameState ctx)
     ++ [MkGuess (currentGuess (gameState ctx))
           (cells (getGuessFeedback (currentGuess (gameState ctx))
                     (secretWord (gameState ctx))))]).
Proof.
  intros [Haz Hlen]. unfold handleSubmit.
  destruct (Nat.eqb_spec (length (currentGuess (gameState ctx)))
              (wl (wordLength (gameState ctx)))) as [Hfull|Hshort]; simpl.
  - assert (Hacc : (submitGuess today (currentGuess (gameState ctx)) ctx).1 = true).
    { destruct (submitGuess today (currentGuess (gameState ctx)) ctx).1 eqn:Hr;
        [done|].
      apply submitGuess_rejects_iff in Hr.
      rewrite length_toLowerCase, toLowerCase_az in Hr by done.
      destruct Hr; [done|congruence]. }
    rewrite Hacc. simpl.
    destruct (submitGuess_accepted today _ ctx Hacc) as (_ & _ & Hgs & _).
    rewrite toLowerCase_az in Hgs by done.
    split_and!; [|done|by rewrite Hgs].
    unfold bufferTyped. rewrite Hgs. simpl. split; [done|lia].
  - split_and!; [done|intros [=]|done].
Qed.

Lemma handleKeyDown_typed today key ctx :
  bufferTyped ctx →
  bufferTyped (handleKeyDown today key ctx).2 ∧
  (handleKeyDown today key ctx).1 ≠ Some (str "Not in word list").
Proof.
  intros Hb. unfold handleKeyDown. case_bool_decide as Hs; simpl; [|done].
  case_bool_decide.
  { destruct (handleSubmit_typed today ctx Hb) as (? & ? & _). done. }
  destruct Hb as [Haz Hlen]. destruct (_ || _); simpl.
  - split; [|done]. rewrite removeLetter_buffer.
    apply bufferTyped_withBuffer.
    + destruct (_ || _); [done|]. by apply forallb_take.
    + destruct (_ || _); [done|]. rewrite length_take. lia.
  - destruct (test_AZ_one (toUpperCase key)) eqn:Hkey; simpl; [|done].
    split; [|done].
    destruct (test_AZ_one_lower _ Hkey) as [Hone Hlow].
    destruct (addLetter_buffer (toUpperCase key) ctx) as [->|(_ & Hroom & ->)];
      [done|].
    apply bufferTyped_withBuffer.
    + by rewrite forallb_app, Haz, Hlow.
    + rewrite length_app, Hone. lia.
Qed.

(** X18. What is typed on the keyboard is always accepted: starting with an
    empty buffer, after any sequence of key events the buffer holds
    lower-case letters only and no more than the word length, no key event
    ever yields the message "Not in word list", and submitting a full
    buffer records it as a guess with its feedback. *)
Theorem typed_guess_accepted (today : Today) (keys : list jsstring)
    (ctx : Context) :
  currentGuess (gameState ctx) = [] →
  let ctx' := typeKeys today keys ctx in
  bufferTyped ctx' ∧
  (∀ key, (handleKeyDown today key ctx').1 ≠ Some (str "Not in word list")) ∧
  (length (currentGuess (gameState ctx')) = wl (wordLength (gameState ctx')) →
   (handleSubmit today ctx').1 = None ∧
   guesses (gameState (handleSubmit today ctx').2)
   = guesses (gameState ctx')
     ++ [MkGuess (currentGuess (gameState ctx'))
           (cells (getGuessFeedback (currentGuess (gameState ctx'))
                     (secretWord (gameState ctx'))))]).
Proof.
  intros Hempty. cbv zeta.
  assert (Hb : bufferTyped (typeKeys today keys ctx)).
  { unfold typeKeys. induction keys as [|key keys IH] using rev_ind.
    - unfold bufferTyped. simpl. rewrite Hempty. simpl. split; [done|lia].
    - rewrite foldl_app. simpl. by apply handleKeyDown_typed. }
  split_and!; [done| |].
  - intros key. by apply handleKeyDown_typed.
  - by apply handleSubmit_typed.
Qed.

Lemma typed_guess_accepted_witness :
  (handleSubmit (MkToday 2026 10 2)
     (typeKeys (MkToday 2026 10 2) (str <$> ["E"; "a"; "G"; "l"; "e"]) worldGame)).1
  = None.
Proof.
  refine (proj1 (proj2 (proj2 (typed_guess_accepted (MkToday 2026 10 2)
                   (str <$> ["E"; "a"; "G"; "l"; "e"]) worldGame eq_refl)) _)).
  reflexivity.
Defined.

(** ** The statistics over many games *)

Lemma distributionTotal_insert (d : gmap Z Z) k v :
  distributionTotal (<[k := v]> d) = distributionTotal d - default 0 (d !! k) + v.
Proof.
  unfold distributionTotal.
  assert (Hcomm : ∀ (m : gmap Z Z) (j1 j2 z1 z2 y : Z),
            j1 ≠ j2 → m !! j1 = Some z1 → m !! j2 = Some z2 →
            z1 + (z2 + y) = z2 + (z1 + y)) by (intros; lia).
  destruct (d !! k) as [x|] eqn:Hk; simpl.
  - rewrite <- insert_delete_eq.
    rewrite map_fold_insert_L; [|by eauto|by rewrite lookup_delete_eq].
    rewrite (map_fold_delete_L _ _ k x d); [lia|by eauto|done].
  - rewrite map_fold_insert_L; [lia|by eauto|done].
Qed.

Lemma distributionTotal_nonneg (d : gmap Z Z) :
  map_Forall (λ _ v, 0 ≤ v) d → 0 ≤ distributionTotal d.
Proof.
  induction d as [|k v d Hk IH] using map_ind.
  - intros _. unfold distributionTotal. by rewrite map_fold_empty.
  - intros [Hv Hd]%map_Forall_insert; [|done].
    rewrite distributionTotal_insert, Hk. simpl. specialize (IH Hd). lia.
Qed.

Lemma distribution_entry_bounds (d : gmap Z Z) k :
  map_Forall (λ _ v, 0 ≤ v) d →
  0 ≤ default 0 (d !! k) ≤ distributionTotal d.
Proof.
  intros Hd. pose proof (distributionTotal_nonneg d Hd) as Htotal.
  destruct (d !! k) as [x|] eqn:Hk; simpl; [|lia].
  pose proof (Hd k x Hk) as Hx. simpl in Hx.
  pose proof (distributionTotal_insert (delete k d) k x) as Hins.
  rewrite insert_delete_id, lookup_delete_eq in Hins by done. simpl in Hins.
  pose proof (distributionTotal_nonneg (delete k d)
                (map_Forall_delete _ _ _ Hd)). lia.
Qed.

Lemma loadStats_stored ls : loadStats ls = storedStats ls.
Proof. unfold loadStats, storedStats. by destruct (wordgame_stats ls). Qed.

Lemma storedStats_updateStats won guesses ls :
  storedStats (updateStats won guesses ls).2 = (updateStats won guesses ls).1.
Proof. done. Qed.

Lemma updateStats_consistent won guesses ls :
  statsConsistent (storedStats ls) → gamesPlayed (storedStats ls) < 2 ^ 53 →
  statsConsistent (updateStats won guesses ls).1.
Proof.
  rewrite <- loadStats_stored. unfold statsConsistent, updateStats.
  intros (H0 & H1 & H2 & H3 & H4 & H5) Hroom.
  pose proof (distribution_entry_bounds _ guesses H5) as Hentry.
  rewrite !js_add_one by (unfold safeCount; lia).
  destruct won; simpl.
  - rewrite distributionTotal_insert, Z.gtb_ltb.
    split_and!; try lia.
    + destruct (Z.ltb_spec (bestStreak (loadStats ls))
                  (currentStreak (loadStats ls) + 1)); lia.
    + destruct (Z.ltb_spec (bestStreak (loadStats ls))
                  (currentStreak (loadStats ls) + 1)); lia.
    + apply map_Forall_insert_2; [lia|done].
  - split_and!; try lia; done.
Qed.

Lemma recordAll_snoc results r ls :
  recordAll (results ++ [r]) ls = (updateStats r.1 r.2 (recordAll results ls)).2.
Proof. unfold recordAll. by rewrite foldl_app. Qed.

Lemma recordAll_cons r results ls :
  recordAll (r :: results) ls = recordAll results (updateStats r.1 r.2 ls).2.
Proof. done. Qed.

Lemma recordAll_app rs1 rs2 ls :
  recordAll (rs1 ++ rs2) ls = recordAll rs2 (recordAll rs1 ls).
Proof. unfold recordAll. by rewrite foldl_app. Qed.

Lemma recordAll_played results ls :
  0 ≤ gamesPlayed (storedStats ls) →
  gamesPlayed (storedStats ls) + Z.of_nat (length results) ≤ 2 ^ 53 →
  gamesPlayed (storedStats (recordAll results ls))
  = gamesPlayed (storedStats ls) + Z.of_nat (length results).
Proof.
  intros H0. induction results as [|r results IH] using rev_ind; [simpl; lia|].
  rewrite length_app. simpl. intros Hroom.
  rewrite recordAll_snoc, storedStats_updateStats.
  specialize (IH ltac:(lia)). unfold updateStats. rewrite loadStats_stored.
  destruct r.1; simpl; rewrite js_add_one by (unfold safeCount; lia); lia.
Qed.

Lemma recordAll_won results ls :
  0 ≤ gamesWon (storedStats ls) →
  gamesWon (storedStats ls) + Z.of_nat (length results) ≤ 2 ^ 53 →
  gamesWon (storedStats (recordAll results ls))
  = gamesWon (storedStats ls)
    + Z.of_nat (length (filter (λ r, r.1 = true) results)).
Proof.
  intros H0. induction results as [|r results IH] using rev_ind; [simpl; lia|].
  rewrite length_app. simpl. intros Hroom.
  rewrite recordAll_snoc, storedStats_updateStats, filter_app, length_app.
  rewrite filter_cons, filter_nil.
  specialize (IH ltac:(lia)).
  pose proof (length_filter (λ r : bool * Z, r.1 = true) results).
  unfold updateStats. rewrite loadStats_stored.
  destruct r as [[] n]; simpl; [|lia].
  rewrite (js_add_one (gamesWon _)) by (unfold safeCount; lia). lia.
Qed.

Lemma recordAll_wins results ls :
  Forall (λ r, r.1 = true) results →
  0 ≤ currentStreak (storedStats ls) →
  currentStreak (storedStats ls) + Z.of_nat (length results) ≤ 2 ^ 53 →
  currentStreak (storedStats (recordAll results ls))
  = currentStreak (storedStats ls) + Z.of_nat (length results).
Proof.
  intros Hall H0.
  induction results as [|[won n] results IH] using rev_ind; [simpl; lia|].
  apply Forall_app in Hall as [Hall Hlast].
  inversion_clear Hlast as [|? ? Hwon _]. cbn in Hwon. subst won.
  rewrite length_app. simpl. intros Hroom.
  rewrite recordAll_snoc, storedStats_updateStats.
  specialize (IH Hall ltac:(lia)). unfold updateStats. rewrite loadStats_stored.
  simpl. rewrite (js_add_one (currentStreak _)) by (unfold safeCount; lia). lia.
Qed.

(** X19. The statistics stay consistent over any sequence of finished
    games that leaves [gamesPlayed] within 2^53: when the stored statistics
    (the all-zero ones for a missing entry) satisfy 0 <= currentStreak <=
    bestStreak <= gamesWon <= gamesPlayed, no distribution entry is negative
    and the distribution sums to gamesWon, so do the statistics stored after
    the games; the all-zero statistics do. *)
Theorem statistics_consistent (results : list (bool * Z)) (ls : Storage) :
  statsConsistent (storedStats ls) →
  gamesPlayed (storedStats ls) + Z.of_nat (length results) ≤ 2 ^ 53 →
  statsConsistent (storedStats (recordAll results ls)) ∧
  statsConsistent (MkStats 0 0 0 0 ∅).
Proof.
  intros H Hroom. split.
  - induction results as [|r results IH] using rev_ind; [done|].
    rewrite length_app in Hroom. simpl in Hroom.
    rewrite recordAll_snoc, storedStats_updateStats.
    apply updateStats_consistent; [apply IH; lia|].
    rewrite recordAll_played; [lia| |lia].
    destruct H as (? & ? & ? & ? & _). lia.
  - unfold statsConsistent. simpl. split_and!; done.
Qed.

Lemma statistics_consistent_witness :
  statsConsistent
    (storedStats (recordAll [(true, 3); (false, 6); (true, 3); (true, 1)]
                    (MkStorage (Some (MkStats 4 3 1 2 {[2 := 1; 5 := 2]})) None))).
Proof.
  refine (proj1 (statistics_consistent
                   [(true, 3); (false, 6); (true, 3); (true, 1)]
                   (MkStorage (Some (MkStats 4 3 1 2 {[2 := 1; 5 := 2]})) None)
                   _ _)).
  - unfold statsConsistent. simpl. split_and!; try (by vm_compute).
    apply (bool_decide_unpack _). by vm_compute.
  - by vm_compute.
Defined.

(** X20. Over a sequence of finished games recorded one after the other,
    on stored statistics (the all-zero ones for a missing entry) whose
    [gamesPlayed], [gamesWon] and [currentStreak] are not negative and stay
    within 2^53 when the number of games is added: [gamesPlayed] grows by
    the number of games and [gamesWon] by the number of wins; the current
    streak is the number of wins since the last loss, and with no loss at
    all it grows by the number of games. *)
Theorem recordAll_totals (results : list (bool * Z)) (ls : Storage) :
  countersHaveRoom (storedStats ls) (length results) →
  let before := storedStats ls in
  let after := storedStats (recordAll results ls) in
  gamesPlayed after = gamesPlayed before + Z.of_nat (length results) ∧
  gamesWon after
    = gamesWon before + Z.of_nat (length (filter (λ r, r.1 = true) results)) ∧
  (∀ earlier n wins,
     results = earlier ++ (false, n) :: wins →
     Forall (λ r, r.1 = true) wins →
     currentStreak after = Z.of_nat (length wins)) ∧
  (Forall (λ r, r.1 = true) results →
   currentStreak after = currentStreak before + Z.of_nat (length results)).
Proof.
  intros ((Hp0 & Hp) & (Hw0 & Hw) & (Hs0 & Hs)). cbv zeta. split_and!.
  - by apply recordAll_played.
  - by apply recordAll_won.
  - intros earlier n wins -> Hwins.
    rewrite length_app in Hp. simpl in Hp.
    rewrite recordAll_app, recordAll_cons.
    rewrite recordAll_wins; rewrite ?storedStats_updateStats; simpl; try done; lia.
  - intros Hall. by apply recordAll_wins.
Qed.

Lemma recordAll_totals_witness :
  currentStreak
    (storedStats (recordAll [(true, 3); (false, 6); (true, 3); (true, 1)]
                    (MkStorage (Some (MkStats 4 3 1 2 {[2 := 1; 5 := 2]})) None)))
  = 2.
Proof.
  refine (proj1 (proj2 (proj2 (recordAll_totals
                   [(true, 3); (false, 6); (true, 3); (true, 1)]
                   (MkStorage (Some (MkStats 4 3 1 2 {[2 := 1; 5 := 2]})) None) _)))
           [(true, 3)] 6 [(true, 3); (true, 1)] eq_refl _).
  - repeat split; by vm_compute.
  - repeat constructor.
Defined.

(** ** The daily word, the daily challenge and the daily record *)

Lemma toInt32_range x : - 2 ^ 31 ≤ toInt32 x < 2 ^ 31.
Proof.
  unfold toInt32. pose proof (Z.mod_pos_bound (x + 2 ^ 31) (2 ^ 32)). lia.
Qed.

Lemma specHash_range chars : - 2 ^ 31 ≤ specHash chars < 2 ^ 31.
Proof.
  unfold specHash. induction chars as [|c chars _] using rev_ind; [simpl; lia|].
  rewrite foldl_app. simpl. apply toInt32_range.
Qed.

(** X21. The hash of a date string is a signed 32-bit number, and
    [getDailyWord] is defined exactly when the word list of the asked
    length is not empty; the word it gives is then a word of that list. *)
Theorem getDailyWord_member (five six : list jsstring) (w : WordLength)
    (today : Today) :
  - 2 ^ 31 ≤ dateHash (dateString today) < 2 ^ 31 ∧
  (wordListFor five six w = [] → getDailyWord five six w today = None) ∧
  (wordListFor five six w ≠ [] →
   ∃ word, getDailyWord five six w today = Some word ∧
           word ∈ wordListFor five six w).
Proof.
  split; [|split].
  - rewrite dateHash_specHash. apply specHash_range.
  - intros Hnil. unfold getDailyWord. by rewrite Hnil.
  - intros Hne. unfold getDailyWord.
    assert (length (wordListFor five six w) ≠ 0%nat)
      by (by destruct (wordListFor five six w)).
    rewrite decide_False by done.
    destruct (lookup_lt_is_Some_2 (wordListFor five six w)
                (Z.to_nat (Z.abs (dateHash (dateString today))
                           mod Z.of_nat (length (wordListFor five six w)))))
      as [word Hword].
    { pose proof (Z.mod_pos_bound (Z.abs (dateHash (dateString today)))
                    (Z.of_nat (length (wordListFor five six w)))). lia. }
    exists word. split; [done|]. by eapply list_elem_of_lookup_2.
Qed.

Lemma getDailyWord_member_witness :
  ∃ word, getDailyWord [str "hello"; str "world"] [str "garden"] Six
            (MkToday 2026 10 2) = Some word ∧
          word ∈ wordListFor [str "hello"; str "world"] [str "garden"] Six.
Proof.
  apply (getDailyWord_member [str "hello"; str "world"] [str "garden"] Six
           (MkToday 2026 10 2)).
  discriminate.
Defined.

Lemma abs_mod2_even h : Z.abs h mod 2 = 0 ↔ Z.even h = true.
Proof.
  rewrite Z.even_spec, Z.mod_divide, Z.divide_abs_r by done.
  split; intros [k ->]; exists k; lia.
Qed.

(** X22. The daily challenge agrees with the daily word: its date is
    today's date string, its word length is 5 when |hash| is even and 6
    otherwise, its word index lies within the word list of that length, and
    the word at that index is the one [getDailyWord] gives for that length;
    on an empty list neither is defined. *)
Theorem getDailyChallenge_agrees (five six : list jsstring) (today : Today) :
  let ch := getDailyChallenge five six today in
  challenge_date ch = dateString today ∧
  (challenge_wordLength ch = Five ↔ Z.even (dateHash (dateString today)) = true) ∧
  (∀ i, wordIndex ch = Some i →
        (i < length (wordListFor five six (challenge_wordLength ch)))%nat) ∧
  getDailyWord five six (challenge_wordLength ch) today
  = (wordIndex ch ≫= λ i, wordListFor five six (challenge_wordLength ch) !! i).
Proof.
  cbv zeta. unfold getDailyChallenge, getDailyWord. simpl. split_and!.
  - done.
  - rewrite <- (abs_mod2_even (dateHash (dateString today))).
    case_decide; naive_solver.
  - intros i. generalize (wordListFor five six
                            (if decide (Z.abs (dateHash (dateString today)) mod 2 = 0)
                             then Five else Six)).
    intros l. case_decide; [done|]. intros [= <-].
    generalize (dateHash (dateString today)). intros h.
    pose proof (Z.mod_pos_bound (Z.abs h) (Z.of_nat (length l))). lia.
  - by case_decide.
Qed.












(** ** The settings *)

Lemma flips_cons t t' ts :
  flips t (t' :: ts) = ((if decide (t' = t) then 1 else 0) + flips t ts)%nat.
Proof. unfold flips. rewrite filter_cons. by case_decide. Qed.

Lemma xorb_odd_succ b n : xorb (negb b) (Nat.odd n) = xorb b (Nat.odd (S n)).
Proof. rewrite Nat.odd_succ, <- Nat.negb_odd. by destruct b, (Nat.odd n). Qed.

(** X25. After any sequence of the three toggles each switch is flipped as
    often as its toggle occurs - so toggling twice restores it and the order
    of different toggles does not matter -, [lastPlayedDate] is kept, and
    after at least one toggle the stored settings are the current ones: a
    provider started from that storage shows the same settings. *)
Theorem toggles_persist (ts : list Toggle) (st : SettingsState) :
  let st' := toggleAll ts st in
  darkMode (settings st')
    = xorb (darkMode (settings st)) (Nat.odd (flips DarkMode ts)) ∧
  colorblindMode (settings st')
    = xorb (colorblindMode (settings st)) (Nat.odd (flips ColorblindMode ts)) ∧
  soundEnabled (settings st')
    = xorb (soundEnabled (settings st)) (Nat.odd (flips Sound ts)) ∧
  lastPlayedDate (settings st') = lastPlayedDate (settings st) ∧
  (ts ≠ [] → initialSettings (wordgame_settings st') = st').
Proof.
  cbv zeta. split_and!.
  1-4: revert st; induction ts as [|t ts IH]; intros st;
    [by (simpl; rewrite ?xorb_false_r)|];
    unfold toggleAll in *; simpl; rewrite IH, ?flips_cons;
    destruct t; simpl; rewrite ?xorb_odd_succ; done.
  - destruct ts as [|t ts _] using rev_ind; [done|]. intros _.
    unfold toggleAll. rewrite foldl_app. simpl.
    by destruct t.
Qed.

Lemma toggles_persist_witness :
  initialSettings
    (wordgame_settings
       (toggleAll [DarkMode; Sound; DarkMode] (initialSettings None)))
  = toggleAll [DarkMode; Sound; DarkMode] (initialSettings None).
Proof.
  apply (toggles_persist [DarkMode; Sound; DarkMode] (initialSettings None)).
  discriminate.
Defined.

(** ** The on-screen keyboard *)

Lemma KEYBOARD_ROWS_keys :
  Forall (λ key, key = str "ENTER" ∨ key = str "BACK" ∨ test_AZ_one key = true)
         (concat KEYBOARD_ROWS).
Proof. apply (bool_decide_unpack _). by vm_compute. Qed.

Lemma test_AZ_one_upper key : test_AZ_one key = true → toUpperCase key = key.
Proof.
  destruct key as [|c [|]]; simpl; try done.
  by destruct c as [[] [] [] [] [] [] [] []].
Qed.

Lemma handleKeyPress_as_keyDown today key ctx :
  key ∈ concat KEYBOARD_ROWS →
  handleKeyPress today key ctx
  = handleKeyDown today (if bool_decide (key = str "BACK")
                         then str "Backspace" else key) ctx.
Proof.
  intros Hkey.
  pose proof (proj1 (Forall_forall _ _) KEYBOARD_ROWS_keys key Hkey) as Hkind.
  unfold handleKeyPress, handleKeyDown.
  destruct (negb _); [done|].
  destruct Hkind as [->|[->|Haz]]; [done|done|].
  pose proof (test_AZ_one_upper _ Haz) as Hup.
  destruct key as [|c [|]]; simpl in Haz; try done.
  rewrite !(bool_decide_eq_false_2 ([c] = _)) by (by intros [=]).
  rewrite Hup.
  rewrite !(bool_decide_eq_false_2 ([c] = _)) by (by intros [=]).
  simpl. by rewrite Haz.
Qed.

Lemma pressKeys_as_typeKeys today keys ctx :
  Forall (λ key, key ∈ concat KEYBOARD_ROWS) keys →
  pressKeys today keys ctx
  = typeKeys today
      ((λ key, if bool_decide (key = str "BACK") then str "Backspace" else key)
       <$> keys) ctx.
Proof.
  unfold pressKeys, typeKeys. revert ctx.
  induction keys as [|key keys IH]; intros ctx Hkeys; [done|].
  inversion_clear Hkeys as [|? ? Hkey Hrest].
  rewrite fmap_cons. cbn [foldl].
  rewrite handleKeyPress_as_keyDown by done. by apply IH.
Qed.

Lemma typeKeys_typed today keys ctx :
  currentGuess (gameState ctx) = [] → bufferTyped (typeKeys today keys ctx).
Proof.
  intros Hempty. unfold typeKeys.
  induction keys as [|key keys IH] using rev_ind.
  - unfold bufferTyped. simpl. rewrite Hempty. simpl. split; [done|lia].
  - rewrite foldl_app. simpl. by apply handleKeyDown_typed.
Qed.

(** X26. Every key of the on-screen keyboard is ENTER, BACK or one
    upper-case letter, and a press on one does what the matching key event
    does (BACK as Backspace). So from an empty buffer, after any sequence of
    presses the buffer holds lower-case letters only and no more than the
    word length, and no press yields the message "Not in word list". *)
Theorem pressed_guess_accepted (today : Today) (keys : list jsstring)
    (ctx : Context) :
  Forall (λ key, key ∈ concat KEYBOARD_ROWS) keys →
  currentGuess (gameState ctx) = [] →
  pressKeys today keys ctx
    = typeKeys today
        ((λ key, if bool_decide (key = str "BACK") then str "Backspace" else key)
         <$> keys) ctx ∧
  bufferTyped (pressKeys today keys ctx) ∧
  ∀ key, key ∈ concat KEYBOARD_ROWS →
         (handleKeyPress today key (pressKeys today keys ctx)).1
         ≠ Some (str "Not in word list").
Proof.
  intros Hkeys Hempty.
  pose proof (pressKeys_as_typeKeys today keys ctx Hkeys) as Hsame.
  split_and!; [done| |].
  - rewrite Hsame. by apply typeKeys_typed.
  - intros key Hkey. rewrite handleKeyPress_as_keyDown by done.
    apply handleKeyDown_typed. rewrite Hsame. by apply typeKeys_typed.
Qed.

Lemma pressed_guess_accepted_witness :
  bufferTyped
    (pressKeys (MkToday 2026 10 2) (str <$> ["E"; "A"; "BACK"; "G"; "ENTER"])
       worldGame).
Proof.
  refine (proj1 (proj2 (pressed_guess_accepted (MkToday 2026 10 2)
                   (str <$> ["E"; "A"; "BACK"; "G"; "ENTER"]) worldGame _ eq_refl))).
  repeat constructor; vm_compute; set_solver.
Defined.
